(** * A shallow embedding of github.com/veqryn/dedup (dedup.go)

    The package deduplicates a newline-delimited input: [splitSortDeduplicate]
    reads the lines into a hash set, spilling the set as a sorted temporary
    chunk file whenever its byte counter would pass [tmpFileBytes];
    [mergeChunks] / [mergeSortableScanners] then k-way merge the chunks into
    the output file, dropping repeated lines; [Dedup] glues both together and
    removes the temporary files in a deferred cleanup.

    Modelling choices:
    - a Go [string] is a [String.string]; Go's [<] on strings is bytewise
      lexicographic, i.e. [String.ltb];
    - [bufio.Scanner] with its default [ScanLines] split function is modelled
      over the data it will deliver: a token is the text up to the next
      ['\n'] with one trailing ['\r'] dropped ([dropCR]); a final line without
      ['\n'] is a token when it is non-empty; once the data is exhausted,
      [Scan] returns false and leaves [Text()] as [""];
    - a read error of the input reader is a flag: the scanner delivers the
      data read before it and then reports the error through [Err()];
    - a compiled skip pattern is its [MatchString] function [string -> bool];
    - files, their contents and every file-system call are kept in a world;
      each fallible call (CreateTemp, a buffered write, Flush, Seek, a read
      by a chunk scanner) asks an oracle [io_ok] whether it succeeds, so
      every error path of the code is reachable; [Close] and [Remove] in
      the deferred cleanup ignore their errors, as the code does;
    - the progress counter and [lineCount] / [lineNum] only feed the
      progress reporter (a separate goroutine that never changes the
      pipeline), so they are left out;
    - loops take a fuel argument; running out of fuel is the outcome
      [Stuck], distinct from every outcome of the Go program. *)

From Stdlib Require Import String Ascii List Arith NArith Bool Lia.
From Stdlib Require Import Sorting.Sorted Sorting.Permutation.
Import ListNotations.
Open Scope string_scope.

(** ** Bytes and the [bufio.ScanLines] scanner *)

Definition newline : ascii := "010"%char.
Definition carriage_return : ascii := "013"%char.

(** [bytes.IndexByte(data, '\n')]: the text before the first newline and,
    when there is one, the text after it. *)
Fixpoint break_nl (s : string) : string * option string :=
  match s with
  | EmptyString => (EmptyString, None)
  | String c r =>
      if Ascii.eqb c newline then (EmptyString, Some r)
      else let (a, b) := break_nl r in (String c a, b)
  end.

(** [dropCR]: drops one terminal ['\r']. *)
Fixpoint dropCR (s : string) : string :=
  match s with
  | EmptyString => EmptyString
  | String c EmptyString =>
      if Ascii.eqb c carriage_return then EmptyString else String c EmptyString
  | String c r => String c (dropCR r)
  end.

(** [bufio.ScanLines] on the remaining data at end of input: [None] when
    there is no data left (the token is [nil]), otherwise the token and the
    data after it. *)
Definition ScanLines (data : string) : option (string * string) :=
  match data with
  | EmptyString => None
  | _ =>
      match break_nl data with
      | (line, Some rest) => Some (dropCR line, rest)
      | (line, None) => Some (dropCR line, EmptyString)
      end
  end.

Record scanner := mkScanner {
  sc_rest : string;   (** data not yet tokenised *)
  sc_token : string;  (** [scanner.Text()] / [scanner.Bytes()] *)
  sc_failed : bool    (** the reader ended with an error instead of EOF *)
}.

Definition NewScanner (data : string) (failed : bool) : scanner :=
  mkScanner data EmptyString failed.

(** [scanner.Scan()].  The model has no limit on the token size: a
    [bufio.Scanner] never grows its buffer past [MaxScanTokenSize] bytes (the
    input scanner of [splitSortDeduplicate] starts with 256KB, the default
    scanners of [mergeChunks] with 4KB) and fails with [ErrTooLong] on a line
    that does not fit.  It describes the code on data whose lines fit
    ([fits_scanner] below); the theorems that need it assume it. *)
Definition Scan (sc : scanner) : bool * scanner :=
  match ScanLines (sc_rest sc) with
  | Some (tok, rest) => (true, mkScanner rest tok (sc_failed sc))
  | None => (false, mkScanner EmptyString EmptyString (sc_failed sc))
  end.

(** The records a reader delivers: the tokens of successive [Scan] calls. *)
Fixpoint lines_fuel (n : nat) (data : string) : list string :=
  match n with
  | O => []
  | S n =>
      match ScanLines data with
      | Some (tok, rest) => tok :: lines_fuel n rest
      | None => []
      end
  end.

Definition lines (data : string) : list string :=
  lines_fuel (S (String.length data)) data.

(** [bufio.MaxScanTokenSize], the limit of the default scanners and the one
    [splitSortDeduplicate] passes to [scanner.Buffer]. *)
Definition MaxScanTokenSize : N := 65536.

(** Data that [Scan] reads without [ErrTooLong]: a record of [n] bytes
    comes from at most [n + 1] bytes (a carriage return [dropCR] removed)
    followed by a newline, and a scanner fails only when its full buffer
    holds no complete line. *)
Definition fits_scanner (data : string) : bool :=
  forallb (fun r => N.leb (N.of_nat (String.length r) + 2) MaxScanTokenSize)
    (lines data).

(** ** The hash set [map[string]struct{}] and [sortKeys] *)

(** The set, as the list of its keys in insertion order; [len(set)] is its
    length. *)
Definition set_mem (set : list string) (x : string) : bool :=
  existsb (String.eqb x) set.

(** [set[line] = struct{}{}]. *)
Definition set_add (set : list string) (x : string) : list string :=
  if set_mem set x then set else (set ++ [x])%list.

(** [sort.Strings]: an insertion sort by Go's [<] on strings. *)
Fixpoint insert_str (x : string) (l : list string) : list string :=
  match l with
  | [] => [x]
  | y :: l' => if String.ltb y x then y :: insert_str x l' else x :: l
  end.

Fixpoint sort_strings (l : list string) : list string :=
  match l with
  | [] => []
  | x :: l' => insert_str x (sort_strings l')
  end.

(** [sortKeys]: the keys of the set (in map iteration order, here insertion
    order), sorted. *)
Definition sortKeys (set : list string) : list string := sort_strings set.

(** ** Files, the file-system log and the world *)

Inductive file := OutFile | Tmp (n : nat).

Definition file_eqb (f g : file) : bool :=
  match f, g with
  | OutFile, OutFile => true
  | Tmp n, Tmp m => Nat.eqb n m
  | _, _ => false
  end.

Inductive event :=
  | ECreate (f : file)                 (** [os.CreateTemp] returned [f] *)
  | EWrite (f : file) (line : string)  (** buffered write of [line] and ['\n'] *)
  | EFlush (f : file)                  (** [writer.Flush()] *)
  | ESeek (f : file)                   (** [f.Seek(0, 0)] *)
  | ENext (f : file) (tok : option string)  (** a chunk scanner's [Scan] *)
  | EClose (f : file)
  | ERemove (f : file).

Record world := mkWorld {
  w_tick : nat;                    (** number of fallible calls so far *)
  w_next : nat;                    (** next temporary file name *)
  w_files : list (file * string);  (** existing files and their contents *)
  w_log : list event               (** file-system calls, latest first *)
}.

(** The destination as the caller opens it in [cmd/main.go]: an existing,
    empty file, and nothing else on disk. *)
Definition world0 : world := mkWorld 0 0 [(OutFile, EmptyString)] [].

Fixpoint file_content (fs : list (file * string)) (f : file) : string :=
  match fs with
  | [] => EmptyString
  | (g, c) :: fs' => if file_eqb f g then c else file_content fs' f
  end.

Fixpoint file_append (fs : list (file * string)) (f : file) (s : string)
  : list (file * string) :=
  match fs with
  | [] => []
  | (g, c) :: fs' =>
      if file_eqb f g then (g, c ++ s) :: fs' else (g, c) :: file_append fs' f s
  end.

Definition file_remove (fs : list (file * string)) (f : file) :=
  filter (fun p => negb (file_eqb f (fst p))) fs.

(** The chronological trace of file-system calls. *)
Definition trace (w : world) : list event := rev (w_log w).

(** ** A state and error monad over the world *)

Inductive error := ErrIO (op : nat) | ErrRead.

Inductive res (A : Type) :=
  | Ok (a : A)
  | Fail (e : error)
  | Panic
  | Stuck.
Arguments Ok {A} a.
Arguments Fail {A} e.
Arguments Panic {A}.
Arguments Stuck {A}.

Definition M (A : Type) := world -> res A * world.

Definition ret {A} (a : A) : M A := fun w => (Ok a, w).
Definition stuck {A} : M A := fun w => (Stuck, w).
Definition panic {A} : M A := fun w => (Panic, w).

Definition bind {A B} (m : M A) (k : A -> M B) : M B :=
  fun w =>
    match m w with
    | (Ok a, w') => k a w'
    | (Fail e, w') => (Fail e, w')
    | (Panic, w') => (Panic, w')
    | (Stuck, w') => (Stuck, w')
    end.

Notation "x <- m ;; k" := (bind m (fun x => k))
  (at level 61, m at next level, right associativity).
Notation "m ;;; k" := (bind m (fun _ => k))
  (at level 61, right associativity).

(** Go's [v, err := f(); if err != nil { ... }]: an error becomes a value. *)
Definition attempt {A} (m : M A) : M (A + error) :=
  fun w =>
    match m w with
    | (Ok a, w') => (Ok (inl a), w')
    | (Fail e, w') => (Ok (inr e), w')
    | (Panic, w') => (Panic, w')
    | (Stuck, w') => (Stuck, w')
    end.

Definition log_event (e : event) (w : world) : world :=
  mkWorld (w_tick w) (w_next w) (w_files w) (e :: w_log w).

(** uint64 arithmetic. *)
Definition u64 (n : N) : N := N.modulo n (2 ^ 64).

(** ** The program *)

Section Program.

(** Whether the fallible file-system call number [n] of the run succeeds. *)
Variable io_ok : nat -> bool.

(** A fallible call: it logs [e] and applies [eff] when it succeeds. *)
Definition io_call {A} (e : event) (eff : world -> world) (a : A) : M A :=
  fun w =>
    let n := w_tick w in
    let w1 := mkWorld (S n) (w_next w) (w_files w) (w_log w) in
    if io_ok n then (Ok a, log_event e (eff w1)) else (Fail (ErrIO n), w1).

(** [os.CreateTemp("", "dedup.*.log")]. *)
Definition CreateTemp : M file :=
  fun w =>
    let f := Tmp (w_next w) in
    io_call (ECreate f)
      (fun w1 => mkWorld (w_tick w1) (S (w_next w1))
                         ((f, EmptyString) :: w_files w1) (w_log w1)) f w.

(** [writer.WriteString(line)] followed by [writer.WriteByte(delimiter)],
    as one call.  The [bufio.Writer] is not modelled: the bytes reach the
    file at once rather than when the buffer fills or is flushed, which
    differs only in what a failing run leaves in the file. *)
Definition write_line (f : file) (line : string) : M unit :=
  let s := line ++ String newline EmptyString in
  io_call (EWrite f line)
    (fun w1 => mkWorld (w_tick w1) (w_next w1) (file_append (w_files w1) f s)
                       (w_log w1)) tt.

(** [writer.Flush()]. *)
Definition Flush (f : file) : M unit := io_call (EFlush f) (fun w1 => w1) tt.

(** [writeSlice]: each string and a delimiter, then a flush. *)
Fixpoint write_lines (f : file) (slice : list string) : M unit :=
  match slice with
  | [] => ret tt
  | line :: rest => write_line f line ;;; write_lines f rest
  end.

Definition writeSlice (f : file) (slice : list string) : M unit :=
  write_lines f slice ;;; Flush f.

(** *** [splitSortDeduplicate] *)

(** The variables live across iterations of the [loop:] label; [currentLen]
    is recomputed from the set in every iteration before it is read. *)
Record split_state := mkSplit {
  st_scanner : scanner;
  st_set : list string;
  st_chunks : list file;
  st_bytesUsed : N;
  st_previousLen : nat
}.

Inductive loop_exit :=
  | Break (st : split_state)                 (** [break loop] *)
  | Return (chunks : list file) (e : error). (** [return chunks, err] *)

Variable tmpFileBytes : N.
Variable skipPatterns : list (string -> bool).

Definition skipped (line : string) : bool :=
  existsb (fun pattern => pattern line) skipPatterns.

(** One iteration of the loop body, from the top of [loop:]; [inr] is the
    state the next iteration starts from (also for [continue loop]). *)
Definition split_step (st : split_state) : M (loop_exit + split_state) :=
  let line := sc_token (st_scanner st) in
  let '(hasNext, sc) := Scan (st_scanner st) in
  if skipped line then
    ret (inr (mkSplit sc (st_set st) (st_chunks st) (st_bytesUsed st)
                      (st_previousLen st)))
  else
    let set := set_add (st_set st) line in
    let currentLen := List.length set in
    if negb hasNext then
      ret (inl (Break (mkSplit sc set (st_chunks st) (st_bytesUsed st)
                               (st_previousLen st))))
    else if Nat.ltb (st_previousLen st) currentLen then
      let bytesUsed :=
        u64 (st_bytesUsed st + N.of_nat (String.length line) + 1) in
      if N.ltb tmpFileBytes
           (u64 (bytesUsed + N.of_nat (String.length (sc_token sc)) + 1))
      then
        r <- attempt CreateTemp ;;
        match r with
        | inr e => ret (inl (Return (st_chunks st) e))
        | inl chunkFile =>
            let chunks := (st_chunks st ++ [chunkFile])%list in
            r2 <- attempt (writeSlice chunkFile (sortKeys set)) ;;
            match r2 with
            | inr e => ret (inl (Return chunks e))
            | inl _ => ret (inr (mkSplit sc [] chunks 0 0))
            end
        end
      else ret (inr (mkSplit sc set (st_chunks st) bytesUsed currentLen))
    else ret (inr (mkSplit sc set (st_chunks st) (st_bytesUsed st) currentLen)).

Fixpoint split_loop (fuel : nat) (st : split_state) : M loop_exit :=
  match fuel with
  | O => stuck
  | S fuel =>
      r <- split_step st ;;
      match r with
      | inl ex => ret ex
      | inr st' => split_loop fuel st'
      end
  end.

(** [scanner.Err()]. *)
Definition scanner_Err (sc : scanner) : option error :=
  if sc_failed sc then Some ErrRead else None.

(** [splitSortDeduplicate(outFile, tmpFileBytes, skipPatterns, ..., inFile)]
    returns the files it wrote to and the error, if any. *)
Definition splitSortDeduplicate (fuel : nat) (input : string) (read_fails : bool)
  : M (list file * option error) :=
  let '(hasNext, sc) := Scan (NewScanner input read_fails) in
  if negb hasNext then ret ([], scanner_Err sc)
  else
    ex <- split_loop fuel (mkSplit sc [] [] 0 0) ;;
    match ex with
    | Return chunks e => ret (chunks, Some e)
    | Break st =>
        match scanner_Err (st_scanner st) with
        | Some e => ret (st_chunks st, Some e)
        | None =>
            r <- (match st_chunks st with
                  | [] => ret (inl OutFile)
                  | _ => attempt CreateTemp
                  end) ;;
            match r with
            | inr e => ret (st_chunks st, Some e)
            | inl finalChunk =>
                let chunks := (st_chunks st ++ [finalChunk])%list in
                r2 <- attempt (writeSlice finalChunk (sortKeys (st_set st))) ;;
                match r2 with
                | inl _ => ret (chunks, None)
                | inr e => ret (chunks, Some e)
                end
            end
        end
    end.

(** *** [mergeChunks] and [mergeSortableScanners] *)

Record sortableScanner := mkSortable {
  ss_token : string;
  ss_scanner : scanner;
  ss_f : file
}.

(** [ss.next()]: a fallible read; on [false] the token field is left as it
    was.  As for [Scan], [ErrTooLong] is not modelled. *)
Definition ss_next (ss : sortableScanner) : M (bool * sortableScanner) :=
  fun w =>
    let n := w_tick w in
    let w1 := mkWorld (S n) (w_next w) (w_files w) (w_log w) in
    if io_ok n then
      match Scan (ss_scanner ss) with
      | (true, sc) =>
          (Ok (true, mkSortable (sc_token sc) sc (ss_f ss)),
           log_event (ENext (ss_f ss) (Some (sc_token sc))) w1)
      | (false, sc) =>
          (Ok (false, mkSortable (ss_token ss) sc (ss_f ss)),
           log_event (ENext (ss_f ss) None) w1)
      end
    else (Fail (ErrIO n), w1).

(** [sort.Slice(scanners, sortScanners)]: sorted by token.  [sort.Slice]
    fixes no order among equal tokens; this insertion sort is one of the
    orders it may produce. *)
Fixpoint insert_ss (x : sortableScanner) (l : list sortableScanner) :=
  match l with
  | [] => [x]
  | y :: l' =>
      if String.ltb (ss_token y) (ss_token x) then y :: insert_ss x l' else x :: l
  end.

Fixpoint sort_scanners (l : list sortableScanner) : list sortableScanner :=
  match l with
  | [] => []
  | x :: l' => insert_ss x (sort_scanners l')
  end.

(** The loop of [mergeSortableScanners]; [previous] is [previousLine] when
    [hasPrevious] holds. *)
Fixpoint merge_loop (fuel : nat) (scanners : list sortableScanner)
    (previous : option string) : M unit :=
  match fuel with
  | O => stuck
  | S fuel =>
      match scanners with
      | [] => ret tt
      | _ =>
          let sorted :=
            if Nat.ltb 1 (List.length scanners) then sort_scanners scanners
            else scanners in
          match sorted with
          | [] => ret tt
          | top :: others =>
              previous' <-
                (match previous with
                 | Some p => if String.eqb p (ss_token top) then ret previous
                             else write_line OutFile (ss_token top) ;;;
                                  ret (Some (ss_token top))
                 | None => write_line OutFile (ss_token top) ;;;
                           ret (Some (ss_token top))
                 end) ;;
              r <- ss_next top ;;
              let '(ok, top') := r in
              merge_loop fuel (if ok then top' :: others else others) previous'
          end
      end
  end.

Definition mergeSortableScanners (fuel : nat) (scanners : list sortableScanner)
  : M unit :=
  merge_loop fuel scanners None ;;; Flush OutFile.

(** [f.Seek(0, 0)]. *)
Definition Seek (f : file) : M unit := io_call (ESeek f) (fun w1 => w1) tt.

(** One chunk of [mergeChunks]: a scanner over the file, rewound, with its
    first token read; a chunk without a line panics. *)
Definition open_chunk (chunk : file) : M sortableScanner :=
  Seek chunk ;;;
  r <- (fun w =>
          ss_next (mkSortable EmptyString
                     (NewScanner (file_content (w_files w) chunk) false) chunk) w) ;;
  let '(ok, ss) := r in if ok then ret ss else panic.

Fixpoint open_chunks (chunks : list file) : M (list sortableScanner) :=
  match chunks with
  | [] => ret []
  | chunk :: rest =>
      ss <- open_chunk chunk ;;
      scanners <- open_chunks rest ;;
      ret (ss :: scanners)
  end.

Definition mergeChunks (fuel : nat) (chunks : list file) : M unit :=
  scanners <- open_chunks chunks ;;
  mergeSortableScanners fuel scanners.

(** *** [Dedup] *)

(** The deferred cleanup: every chunk but the output file is closed and
    removed; errors of [Close] and [Remove] are ignored. *)
Fixpoint cleanup (chunks : list file) (w : world) : world :=
  match chunks with
  | [] => w
  | chunk :: rest =>
      cleanup rest
        (if file_eqb chunk OutFile then w
         else mkWorld (w_tick w) (w_next w) (file_remove (w_files w) chunk)
                (ERemove chunk :: EClose chunk :: w_log w))
  end.

(** [defer]: runs when the function returns or panics. *)
Definition defer_cleanup {A} (chunks : list file) (m : M A) : M A :=
  fun w =>
    match m w with
    | (Stuck, w') => (Stuck, w')
    | (r, w') => (r, cleanup chunks w')
    end.

Definition fail {A} (e : error) : M A := fun w => (Fail e, w).

(** [Dedup(outFile, tmpFileBytes, skipPatterns, inFile, inFileAgain)]. *)
Definition Dedup (fuel : nat) (input : string) (read_fails : bool) : M unit :=
  r <- splitSortDeduplicate fuel input read_fails ;;
  let '(chunks, err) := r in
  defer_cleanup chunks
    (match err with
     | Some e => fail e
     | None =>
         if Nat.leb (List.length chunks) 1 then ret tt
         else mergeChunks fuel chunks
     end).

End Program.

(** A run of [Dedup] from [world0]. *)
Definition run_Dedup (io_ok : nat -> bool) (tmpFileBytes : N)
    (skipPatterns : list (string -> bool)) (fuel : nat) (input : string)
    (read_fails : bool) : res unit * world :=
  Dedup io_ok tmpFileBytes skipPatterns fuel input read_fails world0.

(** Every file-system call succeeds. *)
Definition all_ok : nat -> bool := fun _ => true.

(** The destination's contents after a run. *)
Definition out_contents (w : world) : string := file_content (w_files w) OutFile.

(** ** [countLines] *)

(** The error of one [r.Read(buf)] call. *)
Inductive read_err := RNil | REOF | RErr.

(** [bytes.Count(s, []byte{'\n'})]. *)
Fixpoint count_nl (s : string) : N :=
  match s with
  | EmptyString => 0
  | String c r => (if Ascii.eqb c newline then 1 else 0) + count_nl r
  end.

(** [if c > 0 { last = buf[c-1] }]: the last byte of [s], or [last] when
    [s] is empty. *)
Fixpoint last_byte (s : string) (last : ascii) : ascii :=
  match s with
  | EmptyString => last
  | String c r => last_byte r c
  end.

(** The loop of [countLines] over the results of successive [r.Read(buf)]
    calls, each the bytes read and the error; [None] when the list runs out
    before a call returns an error (the reader is outside the model).  The
    local [progress] counter only decides when to print, so it is left out. *)
Fixpoint countLines_loop (reads : list (string * read_err)) (totalCount : N)
    (last : ascii) : option (N * option error) :=
  match reads with
  | [] => None
  | (buf, err) :: reads' =>
      let count := count_nl buf in
      let totalCount := u64 (totalCount + count) in
      let last := last_byte buf last in
      match err with
      | REOF =>
          Some (if Ascii.eqb last newline then totalCount
                else u64 (totalCount + 1), None)
      | RErr => Some (totalCount, Some ErrRead)
      | RNil => countLines_loop reads' totalCount last
      end
  end.

(** [countLines(r)]: [last] starts as the zero byte. *)
Definition countLines (reads : list (string * read_err)) : option (N * option error) :=
  countLines_loop reads 0 zero.

(** The bytes a reader delivers over its [Read] calls. *)
Definition read_data (reads : list (string * read_err)) : string :=
  fold_right (fun r acc => fst r ++ acc) EmptyString reads.

(** The records of a newline-delimited file as the spec defines them: the
    bytes between delimiters (no ['\r'] is dropped); a final segment
    without delimiter counts when it is non-empty. *)
Fixpoint records_fuel (n : nat) (s : string) : list string :=
  match n with
  | O => []
  | S n =>
      match s with
      | EmptyString => []
      | _ =>
          match break_nl s with
          | (r, Some rest) => r :: records_fuel n rest
          | (r, None) => [r]
          end
      end
  end.

Definition records (s : string) : list string :=
  records_fuel (S (String.length s)) s.

(** Lexicographically non-decreasing. *)
Definition nondecreasing (l : list string) : Prop :=
  Sorted (fun x y => String.leb x y = true) l.

(** ** Concrete inputs *)

Definition nl_str : string := String newline EmptyString.
Definition tab : ascii := "009"%char.

(** The lines [a<TAB>], [a<CR>] and [b], the second one written as
    ["a\r\r\n"] so that [ScanLines] reads it as ["a\r"]. *)
Definition cr_input : string :=
  String "a" (String tab nl_str) ++
  String "a" (String carriage_return (String carriage_return nl_str)) ++
  "b" ++ nl_str.

(** [regexp.MustCompile("^b$").MatchString]. *)
Definition pattern_b : string -> bool := fun s => String.eqb s "b".

(** [regexp.MustCompile("^$").MatchString]: skips blank lines. *)
Definition pattern_blank : string -> bool := fun s => String.eqb s EmptyString.

Definition a_tab : string := String "a" (String tab EmptyString).
Definition a_cr : string := String "a" (String carriage_return EmptyString).

(** The input of [cr_input] and its records. *)
Definition ab_input : string := "a" ++ nl_str ++ "b" ++ nl_str.
Definition blank_last_input : string := "a" ++ nl_str ++ nl_str.
Definition bab_input : string := "b" ++ nl_str ++ "a" ++ nl_str ++ "b" ++ nl_str.

(** ** Observations on a run *)

(** The bytes [writeSlice] writes for a slice. *)
Fixpoint serialize (l : list string) : string :=
  match l with
  | [] => EmptyString
  | x :: l' => x ++ String newline (serialize l')
  end.

(** The records written to [f] in a trace, in order. *)
Definition written (f : file) (tr : list event) : list string :=
  flat_map (fun e => match e with
                     | EWrite g line => if file_eqb f g then [line] else []
                     | _ => []
                     end) tr.

(** Calls of the deferred cleanup. *)
Definition is_cleanup (e : event) : bool :=
  match e with EClose _ | ERemove _ => true | _ => false end.


(** The eager release the spec describes: whenever a chunk scanner reports
    that its chunk is exhausted, the next calls close and delete that chunk. *)
Definition eager_release (tr : list event) : Prop :=
  forall i f, nth_error tr i = Some (ENext f None) ->
    nth_error tr (S i) = Some (EClose f) /\
    nth_error tr (S (S i)) = Some (ERemove f).


(** Two chunk scanners, over the chunks [a c] and [b c], with their first
    token read. *)
Definition scanner_ac : sortableScanner :=
  mkSortable "a" (mkScanner ("c" ++ nl_str) "a" false) (Tmp 0).
Definition scanner_bc : sortableScanner :=
  mkSortable "b" (mkScanner ("c" ++ nl_str) "b" false) (Tmp 1).

(** Two chunks written by a run, [a c] and [b c], beside an empty
    destination. *)
Definition merge_world : world :=
  mkWorld 2 2 [(Tmp 1, "b" ++ nl_str ++ "c" ++ nl_str); (Tmp 0, "a" ++ nl_str ++ "c" ++ nl_str);
               (OutFile, EmptyString)] [].

(** A chunk [a] and an empty chunk. *)
Definition panic_world : world :=
  mkWorld 2 2 [(Tmp 1, EmptyString); (Tmp 0, "a" ++ nl_str); (OutFile, EmptyString)] [].

(** ** Predicates of the proofs *)

(** [s] has no newline byte. *)
Definition nl_free (s : string) : Prop := snd (break_nl s) = None.

(** Go's [<=] on strings. *)
Definition str_le (x y : string) : Prop := x = y \/ String.ltb x y = true.

(** The tokens a chunk scanner still delivers: its current token, then the
    lines of the data it has not read yet. *)
Definition ss_stream (ss : sortableScanner) : list string :=
  ss_token ss :: lines (sc_rest (ss_scanner ss)).

Definition streams (scanners : list sortableScanner) : list string :=
  flat_map ss_stream scanners.

(** Go's string order. *)
Definition str_lt (x y : string) : Prop := String.ltb x y = true.

(** Every chunk is a temporary file created so far, with contents. *)
Definition chunks_filled (chunks : list file) (w : world) : Prop :=
  forall c, In c chunks ->
    exists k, c = Tmp k /\ k < w_next w /\ file_content (w_files w) c <> EmptyString.

(** What the split loop has made of the records [pre] when every call
    succeeds: the kept ones are in the set or in a chunk, each chunk a
    temporary file holding a strictly increasing list of records, no more
    records held than read, and the destination still empty. *)
Definition acc_ok (skipPatterns : list (string -> bool)) (pre : list string)
    (st : split_state) (w : world) : Prop :=
  NoDup (st_set st) /\
  (forall x, (In x (st_set st) \/
              exists c, In c (st_chunks st) /\ In x (lines (file_content (w_files w) c))) <->
             In x pre /\ skipped skipPatterns x = false) /\
  chunks_filled (st_chunks st) w /\
  (forall c, In c (st_chunks st) -> Sorted str_lt (lines (file_content (w_files w) c))) /\
  List.length (flat_map (fun c => lines (file_content (w_files w) c)) (st_chunks st)) +
    List.length (st_set st) <= List.length pre /\
  file_content (w_files w) OutFile = EmptyString /\ In OutFile (map fst (w_files w)).

(** Scanners ordered by their current token. *)
Definition tok_le (a b : sortableScanner) : Prop := str_le (ss_token a) (ss_token b).

Definition is_write_to (f : file) (e : event) : Prop :=
  match e with EWrite g _ | EFlush g => g = f | _ => False end.

(** What the log says so far: every file's records were written in strictly
    increasing order, every temporary file created is among [chunks], and no
    file was closed or removed. *)
Definition logs_ok (chunks : list file) (w : world) : Prop :=
  (forall f, Sorted str_lt (written f (trace w))) /\
  (forall n, In (ECreate (Tmp n)) (w_log w) -> In (Tmp n) chunks) /\
  Forall (fun e => is_cleanup e = false) (w_log w).

(** Files that [splitSortDeduplicate] may still write from scratch: the
    destination and the temporary files not created yet. *)
Definition fresh_ok (w : world) : Prop :=
  (forall n, w_next w <= n -> written (Tmp n) (trace w) = []) /\
  written OutFile (trace w) = [].

Definition split_inv (st : split_state) (w : world) : Prop :=
  NoDup (st_set st) /\ logs_ok (st_chunks st) w /\ fresh_ok w.

(** Neither a creation nor a cleanup call. *)
Definition plain_call (e : event) : bool :=
  match e with ECreate _ | EClose _ | ERemove _ => false | _ => true end.

(** [m] only adds plain calls to the log. *)
Definition plain {A} (m : M A) : Prop :=
  forall w, exists ev, w_log (snd (m w)) = (ev ++ w_log w)%list /\
                       Forall (fun e => plain_call e = true) ev.

(** * Proofs *)

Open Scope list_scope.

(** ** The concrete runs *)

Example cr_input_lines : lines cr_input = [a_tab; a_cr; "b"].
Proof. reflexivity. Qed.

Example cr_input_direct :
  records (out_contents (snd (run_Dedup all_ok 1000 [] 10 cr_input false)))
  = [a_tab; a_cr; "b"].
Proof. vm_compute. reflexivity. Qed.

Example cr_input_merged :
  records (out_contents (snd (run_Dedup all_ok 6 [] 10 cr_input false)))
  = [a_tab; "a"; "b"].
Proof. vm_compute. reflexivity. Qed.

(** ** Claim C9: the empty input *)

(** C9: on an input with no record, read to a clean EOF, [Dedup] succeeds
    whatever the threshold, the patterns and the outcome of file-system calls
    would be, and the world is untouched: no chunk is created, nothing is
    merged, nothing is written to the destination. *)
Theorem Dedup_empty_input (io_ok : nat -> bool) (tmpFileBytes : N)
    (skipPatterns : list (string -> bool)) (fuel : nat) :
  lines EmptyString = [] /\
  run_Dedup io_ok tmpFileBytes skipPatterns fuel EmptyString false = (Ok tt, world0).
Proof. split; reflexivity. Qed.

(** ** Claims C1, C2, C4: a record ending in ['\r'] on the merge path *)

(** C1 (code bug): with threshold 6 the lines [a<TAB>], [a<CR>], [b] are
    spilled into two chunks; the merge re-reads the chunk ["a\t\na\r\n"]
    with [ScanLines], which drops the ['\r'], so the input record [a<CR>]
    (matched by no pattern) is missing from the destination although the run
    succeeds. *)
Theorem Dedup_merge_drops_cr_record :
  let '(r, w) := run_Dedup all_ok 6 [] 10 cr_input false in
  r = Ok tt /\ In a_cr (lines cr_input) /\ skipped [] a_cr = false /\
  count_occ string_dec (records (out_contents w)) a_cr = 0.
Proof. vm_compute. repeat split; auto. Qed.

(** C2 (code bug): on the same successful run the destination holds
    [a<TAB>], [a], [b], which is not non-decreasing ("a" < "a\t"). *)
Theorem Dedup_merge_output_unsorted :
  let '(r, w) := run_Dedup all_ok 6 [] 10 cr_input false in
  r = Ok tt /\ records (out_contents w) = [a_tab; "a"; "b"] /\
  ~ nondecreasing (records (out_contents w)).
Proof.
  vm_compute. repeat split.
  intro H. inversion H as [|x l Hs Hhd]. inversion Hhd. discriminate.
Qed.

(** C4 (code bug): thresholds 6 (two chunks, merge path) and 1000 (direct
    path) both succeed on [cr_input] and leave different destinations. *)
Theorem Dedup_threshold_changes_output :
  let '(r1, w1) := run_Dedup all_ok 6 [] 10 cr_input false in
  let '(r2, w2) := run_Dedup all_ok 1000 [] 10 cr_input false in
  r1 = Ok tt /\ r2 = Ok tt /\ out_contents w1 <> out_contents w2.
Proof. vm_compute. repeat split. discriminate. Qed.

(** ** Claim C3: a skipped last line lets [""] in *)

(** C3 (code bug): on ["a\nb\n"] with the pattern [^b$], the last line is
    skipped; [continue loop] then reads the exhausted scanner, whose token is
    [""], and [""] is written to the destination though it is no line of the
    input. *)
Theorem Dedup_emits_empty_record :
  let '(r, w) := run_Dedup all_ok 1000 [pattern_b] 10 ab_input false in
  r = Ok tt /\ records (out_contents w) = [""; "a"] /\
  ~ In "" (lines ab_input) /\ ~ In "" (records ab_input).
Proof.
  vm_compute. repeat split.
  - intros [H|[H|H]]; [discriminate|discriminate|contradiction].
  - intros [H|[H|H]]; [discriminate|discriminate|contradiction].
Qed.

(** ** Claim C10: the loop does not always terminate *)

(** Once the scanner is exhausted, its token is [""]; when a pattern skips
    [""], an iteration of the loop body leaves the state as it found it. *)
Lemma split_step_exhausted_skipped (io_ok : nat -> bool) (tmpFileBytes : N)
    (skipPatterns : list (string -> bool)) (st : split_state) (w : world) :
  sc_rest (st_scanner st) = EmptyString ->
  sc_token (st_scanner st) = EmptyString ->
  skipped skipPatterns EmptyString = true ->
  split_step io_ok tmpFileBytes skipPatterns st w = (Ok (inr st), w).
Proof.
  destruct st as [[rest tok failed] set chunks bytes prev]; simpl.
  intros -> -> Hskip. unfold split_step; simpl. rewrite Hskip. reflexivity.
Qed.

Lemma split_loop_exhausted_skipped (io_ok : nat -> bool) (tmpFileBytes : N)
    (skipPatterns : list (string -> bool)) (fuel : nat) (st : split_state)
    (w : world) :
  sc_rest (st_scanner st) = EmptyString ->
  sc_token (st_scanner st) = EmptyString ->
  skipped skipPatterns EmptyString = true ->
  split_loop io_ok tmpFileBytes skipPatterns fuel st w = (Stuck, w).
Proof.
  intros Hr Ht Hs. induction fuel as [|fuel IH]; [reflexivity|].
  simpl. unfold bind. rewrite (split_step_exhausted_skipped io_ok _ _ st w Hr Ht Hs).
  exact IH.
Qed.

Lemma bind_stuck {A B} (m : M A) (k : A -> M B) w w' :
  m w = (Stuck, w') -> bind m k w = (Stuck, w').
Proof. intros H. unfold bind. rewrite H. reflexivity. Qed.

(** On ["a\n\n"] the first iteration reads [a] (spilling it or not,
    depending on the threshold) and peeks the blank line; every later
    iteration skips [""]. *)
Lemma blank_split_loop_stuck (tmpFileBytes : N) (fuel : nat) : exists w',
  split_loop all_ok tmpFileBytes [pattern_blank] fuel
    (mkSplit (mkScanner nl_str "a" false) [] [] 0 0) world0 = (Stuck, w').
Proof.
  destruct fuel as [|fuel]; [eexists; reflexivity|].
  simpl split_loop. unfold bind at 1. unfold split_step.
  cbn -[split_loop N.ltb u64].
  destruct (N.ltb tmpFileBytes _); cbn -[split_loop];
    eexists; apply split_loop_exhausted_skipped; reflexivity.
Qed.

(** C10 (code bug): on the input ["a\n\n"], whose last line is blank, with
    the pattern [^$] that skips blank lines, [Dedup] runs out of every fuel
    bound, for every threshold: the read loop never exits. *)
Theorem Dedup_blank_last_line_diverges (tmpFileBytes : N) (fuel : nat) :
  lines blank_last_input = ["a"; ""] /\
  fst (run_Dedup all_ok tmpFileBytes [pattern_blank] fuel blank_last_input false)
  = Stuck.
Proof.
  split; [reflexivity|].
  destruct (blank_split_loop_stuck tmpFileBytes fuel) as [w' H].
  unfold run_Dedup, Dedup. erewrite bind_stuck; [reflexivity|].
  unfold splitSortDeduplicate. cbn -[split_loop].
  apply bind_stuck. exact H.
Qed.

(** ** Claim C5: when the engine spills *)


(** ** Claim C8: chunks are released only by the deferred cleanup *)

(** C8 (counterexample): on ["a\nb\n"] with threshold 3 the two chunks
    [a] and [b] are merged; when the scanner of the first chunk reports it
    exhausted (call 11 of the trace), the next call writes [b] to the
    destination: the chunk is closed and removed only at the end. *)
Theorem merge_keeps_exhausted_chunk :
  let '(r, w) := run_Dedup all_ok 3 [] 10 ab_input false in
  r = Ok tt /\
  nth_error (trace w) 11 = Some (ENext (Tmp 0) None) /\
  nth_error (trace w) 12 = Some (EWrite OutFile "b") /\
  ~ eager_release (trace w).
Proof.
  vm_compute. repeat split.
  intros H. destruct (H 11 (Tmp 0) eq_refl) as [H1 _]. discriminate H1.
Qed.

(** ** Go's string order *)


Lemma str_compare_refl (x : string) : String.compare x x = Eq.
Proof.
  induction x as [|a x IH]; simpl; [reflexivity|].
  unfold Ascii.compare. rewrite N.compare_refl. exact IH.
Qed.

Lemma str_lt_irrefl (x : string) : ~ str_lt x x.
Proof. unfold str_lt, String.ltb. rewrite str_compare_refl. discriminate. Qed.

Lemma str_compare_lt_trans (x y z : string) :
  String.compare x y = Lt -> String.compare y z = Lt -> String.compare x z = Lt.
Proof.
  revert y z. induction x as [|a x IH]; intros [|b y] [|c z]; simpl;
    try discriminate; auto.
  unfold Ascii.compare.
  destruct (N.compare_spec (N_of_ascii a) (N_of_ascii b)) as [Hab|Hab|Hab];
  destruct (N.compare_spec (N_of_ascii b) (N_of_ascii c)) as [Hbc|Hbc|Hbc];
  destruct (N.compare_spec (N_of_ascii a) (N_of_ascii c)) as [Hac|Hac|Hac];
  intros H1 H2; try discriminate; try reflexivity; try lia.
  eapply IH; eassumption.
Qed.

Lemma str_lt_trans (x y z : string) : str_lt x y -> str_lt y z -> str_lt x z.
Proof.
  unfold str_lt, String.ltb.
  destruct (String.compare x y) eqn:Hxy; try discriminate.
  destruct (String.compare y z) eqn:Hyz; try discriminate.
  rewrite (str_compare_lt_trans x y z Hxy Hyz). reflexivity.
Qed.

Lemma str_lt_total (x y : string) : x <> y -> str_lt x y \/ str_lt y x.
Proof.
  intros Hne. unfold str_lt, String.ltb.
  rewrite (String.compare_antisym y x).
  destruct (String.compare x y) eqn:H; simpl; auto.
  apply String.compare_eq_iff in H. contradiction.
Qed.

Lemma set_mem_In (set : list string) (x : string) :
  set_mem set x = true <-> In x set.
Proof.
  unfold set_mem. rewrite existsb_exists. split.
  - intros [y [Hy Heq]]. apply String.eqb_eq in Heq. subst. exact Hy.
  - intros H. exists x. split; [exact H | apply String.eqb_refl].
Qed.

Lemma set_add_NoDup (set : list string) (x : string) :
  NoDup set -> NoDup (set_add set x).
Proof.
  unfold set_add. destruct (set_mem set x) eqn:Hm; [auto|].
  intros Hnd. apply NoDup_app; auto.
  - constructor; [intros []|constructor].
  - intros y Hy [Hxy|[]]. subst. apply set_mem_In in Hy. congruence.
Qed.

(** ** [sortKeys] *)

Lemma insert_str_In (x y : string) (l : list string) :
  In y (insert_str x l) <-> y = x \/ In y l.
Proof.
  induction l as [|z l IH]; simpl; [intuition congruence|].
  destruct (String.ltb z x); simpl; rewrite ?IH; intuition congruence.
Qed.

Lemma sort_strings_In (y : string) (l : list string) :
  In y (sort_strings l) <-> In y l.
Proof.
  induction l as [|x l IH]; simpl; [tauto|].
  rewrite insert_str_In, IH. intuition congruence.
Qed.

Lemma insert_str_sorted (x : string) (l : list string) :
  Sorted str_lt l -> ~ In x l -> Sorted str_lt (insert_str x l).
Proof.
  induction l as [|y l IH]; simpl; intros Hs Hn.
  - repeat constructor.
  - destruct (String.ltb y x) eqn:Hyx.
    + inversion Hs as [|? ? Hl Hhd]; subst. constructor.
      * apply IH; auto.
      * destruct l as [|z l]; simpl; [constructor; exact Hyx|].
        destruct (String.ltb z x); constructor; [inversion Hhd; auto | exact Hyx].
    + constructor; [exact Hs|]. constructor.
      destruct (str_lt_total x y) as [H|H]; [intros ->; auto|exact H|].
      unfold str_lt in H. congruence.
Qed.

Lemma sortKeys_sorted (set : list string) :
  NoDup set -> Sorted str_lt (sortKeys set).
Proof.
  unfold sortKeys. induction set as [|x set IH]; simpl; intros Hnd; [constructor|].
  inversion Hnd; subst. apply insert_str_sorted; [auto|].
  rewrite sort_strings_In. assumption.
Qed.

Lemma sorted_str_lt_NoDup (l : list string) : Sorted str_lt l -> NoDup l.
Proof.
  intros Hs. apply Sorted_StronglySorted in Hs; [|intros x y z; apply str_lt_trans].
  induction Hs as [|x l Hs IH Hall]; constructor; auto.
  intros Hin. rewrite Forall_forall in Hall. apply (str_lt_irrefl x). auto.
Qed.

(** ** What each call adds to the log *)


Lemma file_eqb_refl (f : file) : file_eqb f f = true.
Proof. destruct f; simpl; [reflexivity|apply Nat.eqb_refl]. Qed.

Lemma file_eqb_eq (f g : file) : file_eqb f g = true <-> f = g.
Proof.
  destruct f, g; simpl; split; intros H; try discriminate; try congruence.
  - apply Nat.eqb_eq in H. congruence.
  - injection H as ->. apply Nat.eqb_refl.
Qed.

Lemma written_app (f : file) (l1 l2 : list event) :
  written f (l1 ++ l2) = written f l1 ++ written f l2.
Proof. unfold written. apply flat_map_app. Qed.

Lemma written_other (f g : file) (ev : list event) :
  f <> g -> Forall (is_write_to g) ev -> written f ev = [].
Proof.
  intros Hne. induction 1 as [|e ev He _ IH]; [reflexivity|].
  change (e :: ev) with ([e] ++ ev). rewrite written_app, IH, app_nil_r.
  destruct e; simpl in He; try contradiction; simpl; try reflexivity.
  subst. destruct (file_eqb f g) eqn:E; [apply file_eqb_eq in E; congruence|reflexivity].
Qed.

Lemma trace_cons (e : event) (w : world) :
  trace (log_event e w) = trace w ++ [e].
Proof. reflexivity. Qed.

Section Effects.

Variable io_ok : nat -> bool.

Lemma write_line_spec (f : file) (line : string) (w : world) :
  let '(r, w') := write_line io_ok f line w in
  w_next w' = w_next w /\
  ((r = Ok tt /\ w_log w' = EWrite f line :: w_log w) \/
   (exists e, r = Fail e /\ w_log w' = w_log w)).
Proof.
  unfold write_line, io_call. destruct (io_ok (w_tick w)); simpl.
  - split; [reflexivity|]. left. split; reflexivity.
  - split; [reflexivity|]. right. eexists. split; reflexivity.
Qed.

Lemma write_lines_spec (f : file) (l : list string) (w : world) :
  let '(r, w') := write_lines io_ok f l w in
  (r = Ok tt \/ exists e, r = Fail e) /\ w_next w' = w_next w /\
  (exists ev, w_log w' = ev ++ w_log w /\ Forall (is_write_to f) ev) /\
  (exists p q, l = p ++ q /\ written f (trace w') = written f (trace w) ++ p).
Proof.
  revert w. induction l as [|x l IH]; intros w; simpl.
  - split; [auto|]. split; [reflexivity|]. split.
    + exists []. split; [reflexivity|constructor].
    + exists [], []. split; [reflexivity|]. rewrite app_nil_r. reflexivity.
  - unfold bind. pose proof (write_line_spec f x w) as Hx.
    destruct (write_line io_ok f x w) as [r1 w1].
    destruct Hx as [Hn1 [[-> Hl1]|[e [-> Hl1]]]].
    + specialize (IH w1). destruct (write_lines io_ok f l w1) as [r2 w2].
      destruct IH as [Hr [Hn2 [[ev [Hl2 Hev]] [p [q [Hpq Hw]]]]]].
      split; [exact Hr|]. split; [congruence|]. split.
      * exists (ev ++ [EWrite f x]). rewrite Hl2, Hl1, <- app_assoc. split; [reflexivity|].
        apply Forall_app. split; [exact Hev|]. repeat constructor.
      * exists (x :: p), q. split; [simpl; congruence|].
        rewrite Hw. unfold trace at 1. rewrite Hl1. simpl.
        rewrite written_app. simpl. rewrite file_eqb_refl. simpl.
        rewrite <- app_assoc. reflexivity.
    + split; [right; eauto|]. split; [exact Hn1|]. split.
      * exists []. split; [exact Hl1|constructor].
      * exists [], (x :: l). split; [reflexivity|].
        unfold trace. rewrite Hl1, app_nil_r. reflexivity.
Qed.

Lemma writeSlice_spec (f : file) (l : list string) (w : world) :
  let '(r, w') := writeSlice io_ok f l w in
  (r = Ok tt \/ exists e, r = Fail e) /\ w_next w' = w_next w /\
  (exists ev, w_log w' = ev ++ w_log w /\ Forall (is_write_to f) ev) /\
  (exists p q, l = p ++ q /\ written f (trace w') = written f (trace w) ++ p).
Proof.
  unfold writeSlice, bind. pose proof (write_lines_spec f l w) as H.
  destruct (write_lines io_ok f l w) as [r1 w1].
  destruct H as [Hr [Hn [[ev [Hl Hev]] Hp]]].
  destruct Hr as [->|[e ->]].
  2:{ split; [right; eauto|]. split; [exact Hn|]. split; [exists ev; auto|exact Hp]. }
  unfold Flush, io_call. destruct (io_ok (w_tick w1)); simpl.
  - split; [auto|]. split; [exact Hn|]. split.
    + exists (EFlush f :: ev). rewrite Hl. split; [reflexivity|]. constructor; [reflexivity|exact Hev].
    + destruct Hp as [p [q [Hpq Hw]]]. exists p, q. split; [exact Hpq|].
      change (written f (trace w1 ++ [EFlush f]) = written f (trace w) ++ p).
      rewrite written_app, app_nil_r. exact Hw.
  - split; [right; eauto|]. split; [exact Hn|]. split.
    + exists ev. split; [exact Hl|exact Hev].
    + exact Hp.
Qed.

Lemma CreateTemp_spec (w : world) :
  let '(r, w') := CreateTemp io_ok w in
  (r = Ok (Tmp (w_next w)) /\ w_next w' = S (w_next w) /\
   w_log w' = ECreate (Tmp (w_next w)) :: w_log w /\
   file_content (w_files w') (Tmp (w_next w)) = EmptyString /\
   In (Tmp (w_next w)) (map fst (w_files w'))) \/
  (exists e, r = Fail e /\ w_next w' = w_next w /\ w_log w' = w_log w).
Proof.
  unfold CreateTemp, io_call. destruct (io_ok (w_tick w)); simpl.
  - left. rewrite Nat.eqb_refl. repeat split; auto.
  - right. eexists. repeat split.
Qed.

End Effects.

(** ** The invariant of [splitSortDeduplicate] *)



Lemma Sorted_app_l {A} (R : A -> A -> Prop) (p q : list A) :
  Sorted R (p ++ q) -> Sorted R p.
Proof.
  induction p as [|x p IH]; simpl; intros H; [constructor|].
  inversion H as [|? ? Hs Hhd]; subst. constructor; [auto|].
  destruct p; [constructor|]. inversion Hhd; constructor; auto.
Qed.

Lemma logs_ok_incl (chunks chunks' : list file) (w : world) :
  incl chunks chunks' -> logs_ok chunks w -> logs_ok chunks' w.
Proof. unfold logs_ok. intros Hi [H1 [H2 H3]]. repeat split; auto. Qed.

Section SplitInv.

Variable io_ok : nat -> bool.

Lemma write_sorted_logs (f : file) (set : list string) (chunkl : list file)
    (w : world) :
  logs_ok chunkl w -> NoDup set -> written f (trace w) = [] ->
  let '(r, w') := attempt (writeSlice io_ok f (sortKeys set)) w in
  (exists x, r = Ok x) /\ logs_ok chunkl w' /\ w_next w' = w_next w /\
  (forall g, g <> f -> written g (trace w') = written g (trace w)).
Proof.
  unfold logs_ok. intros [Hs [Hc Hn]] Hnd Hf. unfold attempt.
  pose proof (writeSlice_spec io_ok f (sortKeys set) w) as H.
  destruct (writeSlice io_ok f (sortKeys set) w) as [r w'].
  destruct H as [Hr [Hnext [[ev [Hl Hev]] [p [q [Hpq Hw]]]]]].
  assert (Hother : forall g, g <> f -> written g (trace w') = written g (trace w)).
  { intros g Hg. unfold trace. rewrite Hl, rev_app_distr, written_app.
    rewrite (written_other g f (rev ev)); [apply app_nil_r|exact Hg|].
    apply Forall_rev. exact Hev. }
  assert (Hlogs : logs_ok chunkl w').
  2:{ destruct Hr as [->|[e ->]]; cbv beta iota;
       (split; [eauto|split; [exact Hlogs|split; [exact Hnext|exact Hother]]]). }
  split; [|split].
  - intros g. destruct (file_eqb g f) eqn:E.
    + apply file_eqb_eq in E. subst g. rewrite Hw, Hf. simpl.
      apply (Sorted_app_l _ p q). rewrite <- Hpq. apply sortKeys_sorted. exact Hnd.
    + rewrite Hother; [apply Hs|]. intros ->. rewrite file_eqb_refl in E. discriminate.
  - intros n Hin. apply Hc. rewrite Hl in Hin. apply in_app_or in Hin as [Hin|Hin]; [|exact Hin].
    rewrite Forall_forall in Hev. apply Hev in Hin. contradiction.
  - rewrite Hl. apply Forall_app. split; [|exact Hn].
    rewrite Forall_forall in Hev |- *. intros e He. apply Hev in He.
    destruct e; simpl in He; try contradiction; reflexivity.
Qed.

Lemma create_logs (chunks : list file) (w : world) :
  logs_ok chunks w ->
  let '(r, w') := attempt (CreateTemp io_ok) w in
  (r = Ok (inl (Tmp (w_next w))) /\ logs_ok (chunks ++ [Tmp (w_next w)]) w' /\
   w_next w' = S (w_next w) /\ (forall g, written g (trace w') = written g (trace w))) \/
  (exists e, r = Ok (inr e) /\ w_log w' = w_log w /\ w_next w' = w_next w).
Proof.
  unfold logs_ok. intros [Hs [Hc Hn]]. unfold attempt.
  pose proof (CreateTemp_spec io_ok w) as H.
  destruct (CreateTemp io_ok w) as [r w'].
  destruct H as [[-> [Hnext [Hl _]]]|[e [-> [Hnext Hl]]]].
  - assert (Hw : forall g, written g (trace w') = written g (trace w)).
    { intros g. unfold trace. rewrite Hl. simpl. rewrite written_app. simpl. apply app_nil_r. }
    cbv beta iota. left. split; [reflexivity|]. split; [|split; [exact Hnext|exact Hw]].
    split; [|split].
    + intros g. rewrite Hw. apply Hs.
    + intros n Hin. rewrite Hl in Hin. destruct Hin as [Hin|Hin].
      * injection Hin as <-. apply in_or_app. right. left. reflexivity.
      * apply in_or_app. left. auto.
    + rewrite Hl. constructor; [reflexivity|exact Hn].
  - cbv beta iota. right. exists e. auto.
Qed.

Lemma logs_ok_same_log (chunks : list file) (w w' : world) :
  w_log w' = w_log w -> logs_ok chunks w -> logs_ok chunks w'.
Proof. unfold logs_ok, trace. intros ->. auto. Qed.


Variable tmpFileBytes : N.
Variable skipPatterns : list (string -> bool).

Ltac inv_same := split; [assumption|split; [assumption|split; assumption]].

Lemma split_step_inv (st : split_state) (w : world) :
  split_inv st w ->
  let '(r, w') := split_step io_ok tmpFileBytes skipPatterns st w in
  match r with
  | Ok (inr st') => split_inv st' w'
  | Ok (inl (Break st')) => split_inv st' w'
  | Ok (inl (Return chunks' _)) => logs_ok chunks' w'
  | _ => False
  end.
Proof.
  destruct st as [sc set chunks bytes prev].
  intros [Hnd [Hlogs [Hfresh Hout]]]. unfold split_step; simpl in *.
  destruct (Scan sc) as [hasNext sc'].
  destruct (skipped skipPatterns (sc_token sc)); simpl.
  { inv_same. }
  assert (Hnd' : NoDup (set_add set (sc_token sc))) by (apply set_add_NoDup; exact Hnd).
  destruct hasNext; simpl; [|inv_same].
  destruct (Nat.ltb prev _); [|simpl; inv_same].
  destruct (N.ltb tmpFileBytes _); [|simpl; inv_same].
  unfold bind at 1.
  pose proof (create_logs chunks w Hlogs) as Hc.
  destruct (attempt (CreateTemp io_ok) w) as [r1 w1].
  destruct Hc as [[-> [Hlogs1 [Hn1 Hw1]]]|[e [-> [Hl1 Hn1]]]].
  - unfold bind.
    assert (Hf1 : written (Tmp (w_next w)) (trace w1) = []).
    { rewrite Hw1. apply Hfresh. lia. }
    pose proof (write_sorted_logs (Tmp (w_next w)) _ _ w1 Hlogs1 Hnd' Hf1) as Hs.
    destruct (attempt (writeSlice io_ok (Tmp (w_next w))
                (sortKeys (set_add set (sc_token sc)))) w1) as [r2 w2].
    destruct Hs as [[x ->] [Hlogs2 [Hn2 Ho2]]].
    destruct x as [_|e]; simpl; [|exact Hlogs2].
    split; [constructor|]. split; [exact Hlogs2|]. split.
    + intros m Hm. rewrite Ho2; [rewrite Hw1; apply Hfresh; lia|].
      intros Heq. injection Heq as ->. lia.
    + rewrite Ho2; [rewrite Hw1; exact Hout|discriminate].
  - simpl. eapply logs_ok_same_log; [exact Hl1|exact Hlogs].
Qed.

Lemma split_loop_inv (fuel : nat) (st : split_state) (w : world) :
  split_inv st w ->
  let '(r, w') := split_loop io_ok tmpFileBytes skipPatterns fuel st w in
  match r with
  | Ok (Break st') => split_inv st' w'
  | Ok (Return chunks' _) => logs_ok chunks' w'
  | Stuck => exists chunks', logs_ok chunks' w'
  | _ => False
  end.
Proof.
  revert st w. induction fuel as [|fuel IH]; intros st w Hinv.
  - simpl. exists (st_chunks st). apply Hinv.
  - simpl. unfold bind.
    pose proof (split_step_inv st w Hinv) as Hs.
    destruct (split_step io_ok tmpFileBytes skipPatterns st w) as [r w1].
    destruct r as [[ex|st']| | |]; try contradiction.
    + destruct ex; exact Hs.
    + apply IH. exact Hs.
Qed.

Lemma splitSortDeduplicate_inv (fuel : nat) (input : string) (read_fails : bool)
    (w : world) :
  logs_ok [] w -> fresh_ok w ->
  let '(r, w') :=
    splitSortDeduplicate io_ok tmpFileBytes skipPatterns fuel input read_fails w in
  match r with
  | Ok (chunks, _) => logs_ok chunks w'
  | Stuck => exists chunks, logs_ok chunks w'
  | _ => False
  end.
Proof.
  intros Hlogs Hfr. unfold splitSortDeduplicate.
  destruct (Scan (NewScanner input read_fails)) as [[|] sc]; simpl; [|exact Hlogs].
  unfold bind at 1.
  assert (Hinv : split_inv (mkSplit sc [] [] 0 0) w).
  { split; [constructor|split; assumption]. }
  pose proof (split_loop_inv fuel _ w Hinv) as Hl.
  destruct (split_loop io_ok tmpFileBytes skipPatterns fuel (mkSplit sc [] [] 0 0) w)
    as [r w1].
  destruct r as [ex| | |]; try contradiction; [|exact Hl].
  destruct ex as [st|chunks e]; [|exact Hl].
  destruct Hl as [Hnd [Hlogs1 [Hfresh1 Hout1]]].
  destruct (scanner_Err (st_scanner st)); [exact Hlogs1|].
  destruct (st_chunks st) as [|c cs] eqn:Hch.
  - unfold bind. cbv beta iota delta [ret].
    pose proof (write_sorted_logs OutFile (st_set st) [OutFile] w1) as Hs.
    destruct (attempt (writeSlice io_ok OutFile (sortKeys (st_set st))) w1) as [r2 w2].
    destruct Hs as [[x ->] [Hlogs2 _]].
    + eapply logs_ok_incl; [|exact Hlogs1]. intros f [].
    + exact Hnd.
    + exact Hout1.
    + destruct x; exact Hlogs2.
  - unfold bind at 1.
    pose proof (create_logs (c :: cs) w1 Hlogs1) as Hc.
    destruct (attempt (CreateTemp io_ok) w1) as [r1 w2].
    destruct Hc as [[-> [Hlogs2 [Hn2 Hw2]]]|[e [-> [Hl2 Hn2]]]].
    + unfold bind.
      assert (Hf2 : written (Tmp (w_next w1)) (trace w2) = []).
      { rewrite Hw2. apply Hfresh1. lia. }
      pose proof (write_sorted_logs (Tmp (w_next w1)) (st_set st) _ w2 Hlogs2 Hnd Hf2) as Hs.
      destruct (attempt (writeSlice io_ok (Tmp (w_next w1)) (sortKeys (st_set st))) w2)
        as [r3 w3].
      destruct Hs as [[x ->] [Hlogs3 _]].
      destruct x; exact Hlogs3.
    + simpl. eapply logs_ok_same_log; [exact Hl2|exact Hlogs1].
Qed.

End SplitInv.

(** ** Claim C6: chunks are sorted and duplicate-free *)

Lemma world0_logs_ok : logs_ok [] world0.
Proof.
  split; [|split]; [intros f; constructor|intros n []|constructor].
Qed.

Lemma world0_fresh_ok : fresh_ok world0.
Proof. split; [intros n _|]; reflexivity. Qed.

(** C6: for every oracle of file-system outcomes, threshold, pattern list and
    input, in the log left by [splitSortDeduplicate] (run from the initial
    world, whether it succeeds, fails, or is cut short) the records written
    to each file, temporary chunk or destination alike, form a strictly
    increasing sequence in Go's string order, hence contain no duplicate. *)
Theorem splitSortDeduplicate_chunks_sorted (io_ok : nat -> bool) (tmpFileBytes : N)
    (skipPatterns : list (string -> bool)) (fuel : nat) (input : string)
    (read_fails : bool) :
  let '(r, w) :=
    splitSortDeduplicate io_ok tmpFileBytes skipPatterns fuel input read_fails world0 in
  forall f, Sorted str_lt (written f (trace w)) /\ NoDup (written f (trace w)).
Proof.
  pose proof (splitSortDeduplicate_inv io_ok tmpFileBytes skipPatterns fuel input
                read_fails world0 world0_logs_ok world0_fresh_ok) as H.
  destruct (splitSortDeduplicate io_ok tmpFileBytes skipPatterns fuel input
              read_fails world0) as [r w].
  assert (Hs : exists chunks, logs_ok chunks w).
  { destruct r as [[chunks e]| | |]; try contradiction; eauto. }
  destruct Hs as [chunks [Hs _]]. intros f.
  split; [apply Hs|apply sorted_str_lt_NoDup, Hs].
Qed.

(** ** Calls the merge makes *)



Lemma plain_ret {A} (a : A) : plain (ret a).
Proof. intros w. exists []. split; [reflexivity|constructor]. Qed.

Lemma plain_stuck {A} : plain (@stuck A).
Proof. intros w. exists []. split; [reflexivity|constructor]. Qed.

Lemma plain_panic {A} : plain (@panic A).
Proof. intros w. exists []. split; [reflexivity|constructor]. Qed.

Lemma plain_fail {A} (e : error) : plain (@fail A e).
Proof. intros w. exists []. split; [reflexivity|constructor]. Qed.

Lemma plain_bind {A B} (m : M A) (k : A -> M B) :
  plain m -> (forall a, plain (k a)) -> plain (bind m k).
Proof.
  intros Hm Hk w. unfold bind.
  destruct (Hm w) as [ev1 [Hl1 Hf1]].
  destruct (m w) as [r w1]; simpl in Hl1.
  destruct r as [a|e| |]; simpl;
    try (exists ev1; split; assumption).
  destruct (Hk a w1) as [ev2 [Hl2 Hf2]].
  exists (ev2 ++ ev1). rewrite Hl2, Hl1, app_assoc. split; [reflexivity|].
  apply Forall_app. split; assumption.
Qed.

Lemma plain_io_call {A} (io_ok : nat -> bool) (e : event) (a : A) :
  plain_call e = true -> plain (io_call io_ok e (fun w1 => w1) a).
Proof.
  intros He w. unfold io_call. destruct (io_ok (w_tick w)); simpl.
  - exists [e]. split; [reflexivity|repeat constructor; exact He].
  - exists []. split; [reflexivity|constructor].
Qed.

Section MergePlain.

Variable io_ok : nat -> bool.

Lemma plain_write_line (f : file) (line : string) : plain (write_line io_ok f line).
Proof.
  intros w. unfold write_line, io_call. destruct (io_ok (w_tick w)); simpl.
  - exists [EWrite f line]. split; [reflexivity|repeat constructor].
  - exists []. split; [reflexivity|constructor].
Qed.

Lemma plain_ss_next (ss : sortableScanner) : plain (ss_next io_ok ss).
Proof.
  intros w. unfold ss_next. destruct (io_ok (w_tick w)).
  - destruct (Scan (ss_scanner ss)) as [[|] sc]; simpl.
    + exists [ENext (ss_f ss) (Some (sc_token sc))]. split; [reflexivity|repeat constructor].
    + exists [ENext (ss_f ss) None]. split; [reflexivity|repeat constructor].
  - exists []. split; [reflexivity|constructor].
Qed.

Lemma plain_open_chunk (chunk : file) : plain (open_chunk io_ok chunk).
Proof.
  unfold open_chunk. apply plain_bind; [apply plain_io_call; reflexivity|intros _].
  apply plain_bind.
  - intros w. apply plain_ss_next.
  - intros [[|] ss]; [apply plain_ret|apply plain_panic].
Qed.

Lemma plain_open_chunks (chunks : list file) : plain (open_chunks io_ok chunks).
Proof.
  induction chunks as [|c cs IH]; simpl; [apply plain_ret|].
  apply plain_bind; [apply plain_open_chunk|intros ss].
  apply plain_bind; [exact IH|intros scs]. apply plain_ret.
Qed.

Lemma plain_merge_loop (fuel : nat) (scanners : list sortableScanner)
    (previous : option string) : plain (merge_loop io_ok fuel scanners previous).
Proof.
  revert scanners previous. induction fuel as [|fuel IH]; intros scanners previous;
    simpl; [apply plain_stuck|].
  destruct scanners as [|s ss]; [apply plain_ret|].
  destruct (if Nat.ltb 1 _ then _ else _) as [|top others]; [apply plain_ret|].
  apply plain_bind.
  - destruct previous as [p|]; [destruct (String.eqb p (ss_token top))|];
      try apply plain_ret;
      (apply plain_bind; [apply plain_write_line|intros _; apply plain_ret]).
  - intros previous'. apply plain_bind; [apply plain_ss_next|].
    intros [ok top']. apply IH.
Qed.

Lemma plain_mergeChunks (fuel : nat) (chunks : list file) :
  plain (mergeChunks io_ok fuel chunks).
Proof.
  unfold mergeChunks. apply plain_bind; [apply plain_open_chunks|intros scs].
  unfold mergeSortableScanners. apply plain_bind; [apply plain_merge_loop|intros _].
  apply plain_io_call. reflexivity.
Qed.

End MergePlain.

(** ** The deferred cleanup *)

Lemma cleanup_log (chunks : list file) (w : world) :
  exists cl, w_log (cleanup chunks w) = cl ++ w_log w /\
    Forall (fun e => is_cleanup e = true) cl /\
    (forall c, In c chunks -> c <> OutFile -> In (EClose c) cl /\ In (ERemove c) cl) /\
    ~ In (ERemove OutFile) cl.
Proof.
  revert w. induction chunks as [|c cs IH]; intros w; simpl.
  - exists []. split; [reflexivity|]. split; [constructor|]. split; [tauto|tauto].
  - destruct (file_eqb c OutFile) eqn:Hc.
    + apply file_eqb_eq in Hc. subst c.
      destruct (IH w) as [cl [Hl [Hf [Hin Hout]]]].
      exists cl. split; [exact Hl|]. split; [exact Hf|]. split; [|exact Hout].
      intros c [<-|Hc] Hne; [congruence|]. auto.
    + set (w1 := mkWorld _ _ _ _).
      destruct (IH w1) as [cl [Hl [Hf [Hin Hout]]]].
      exists (cl ++ [ERemove c; EClose c]). rewrite Hl, <- app_assoc. split; [reflexivity|].
      split; [apply Forall_app; split; [exact Hf|repeat constructor]|].
      split.
      * intros c' [<-|Hc'] Hne.
        -- split; apply in_or_app; right; simpl; auto.
        -- destruct (Hin c' Hc' Hne). split; apply in_or_app; left; assumption.
      * intros Hr. apply in_app_or in Hr as [Hr|[Hr|[Hr|[]]]]; [tauto| |discriminate].
        injection Hr as Hr. subst c. rewrite file_eqb_refl in Hc. discriminate.
Qed.

(** The log of a run of [Dedup] that ends: the calls of [splitSortDeduplicate]
    ([base]), which create only files listed among the chunks and make no
    cleanup call; then the calls of the merge ([pl]), neither creations nor
    cleanup calls; then the deferred cleanup ([cl]). *)
Lemma Dedup_log_shape (io_ok : nat -> bool) (tmpFileBytes : N)
    (skipPatterns : list (string -> bool)) (fuel : nat) (input : string)
    (read_fails : bool) :
  fst (run_Dedup io_ok tmpFileBytes skipPatterns fuel input read_fails) <> Stuck ->
  exists chunks cl pl base,
    w_log (snd (run_Dedup io_ok tmpFileBytes skipPatterns fuel input read_fails))
      = cl ++ pl ++ base /\
    Forall (fun e => is_cleanup e = true) cl /\
    (forall c, In c chunks -> c <> OutFile -> In (EClose c) cl /\ In (ERemove c) cl) /\
    ~ In (ERemove OutFile) cl /\
    Forall (fun e => plain_call e = true) pl /\
    (forall n, In (ECreate (Tmp n)) base -> In (Tmp n) chunks) /\
    Forall (fun e => is_cleanup e = false) base.
Proof.
  pose proof (splitSortDeduplicate_inv io_ok tmpFileBytes skipPatterns fuel input
                read_fails world0 world0_logs_ok world0_fresh_ok) as Hinv.
  unfold run_Dedup, Dedup, bind.
  destruct (splitSortDeduplicate io_ok tmpFileBytes skipPatterns fuel input
              read_fails world0) as [r1 w1].
  destruct r1 as [[chunks err]|e| |]; simpl in Hinv; try contradiction.
  destruct Hinv as [_ [Hcr Hnc]].
  set (m := match err with Some e => _ | None => _ end).
  assert (Hp : plain m).
  { subst m. destruct err as [e|]; [apply plain_fail|].
    destruct (Nat.leb _ 1); [apply plain_ret|apply plain_mergeChunks]. }
  unfold defer_cleanup. destruct (Hp w1) as [pl [Hl Hf]].
  destruct (m w1) as [r2 w2]. simpl in Hl.
  destruct (cleanup_log chunks w2) as [cl [Hl2 [Hf2 [Hin2 Hout2]]]].
  intros Hns.
  exists chunks, cl, pl, (w_log w1).
  destruct r2; simpl in Hns |- *; try congruence;
    rewrite Hl2, Hl;
    (split; [reflexivity|]); do 5 (split; [assumption|]); assumption.
Qed.

(** ** Claim C7: the deferred cleanup *)

(** C7: for every oracle of file-system outcomes (so whether the run
    succeeds or fails at any stage, or panics while opening a chunk),
    threshold, pattern list and input, a run of [Dedup] that ends closes and
    removes every temporary file it created, and never removes the
    destination. *)
Theorem Dedup_removes_created_chunks (io_ok : nat -> bool) (tmpFileBytes : N)
    (skipPatterns : list (string -> bool)) (fuel : nat) (input : string)
    (read_fails : bool) :
  fst (run_Dedup io_ok tmpFileBytes skipPatterns fuel input read_fails) <> Stuck ->
  let w := snd (run_Dedup io_ok tmpFileBytes skipPatterns fuel input read_fails) in
  (forall n, In (ECreate (Tmp n)) (trace w) ->
             In (EClose (Tmp n)) (trace w) /\ In (ERemove (Tmp n)) (trace w)) /\
  ~ In (ERemove OutFile) (trace w).
Proof.
  intros Hns.
  destruct (Dedup_log_shape io_ok tmpFileBytes skipPatterns fuel input read_fails Hns)
    as (chunks & cl & pl & base & Heq & Hcl & Hin & Hout & Hpl & Hcr & Hbase).
  cbv zeta. unfold trace. rewrite Heq. split.
  - intros n Hn. rewrite <- in_rev in Hn.
    apply in_app_or in Hn as [Hn|Hn];
      [rewrite Forall_forall in Hcl; specialize (Hcl _ Hn); discriminate|].
    apply in_app_or in Hn as [Hn|Hn];
      [rewrite Forall_forall in Hpl; specialize (Hpl _ Hn); discriminate|].
    destruct (Hin (Tmp n) (Hcr n Hn)) as [H1 H2]; [discriminate|].
    rewrite <- !in_rev. split; apply in_or_app; left; assumption.
  - rewrite <- in_rev. intros Hn.
    apply in_app_or in Hn as [Hn|Hn]; [contradiction|].
    apply in_app_or in Hn as [Hn|Hn].
    + rewrite Forall_forall in Hpl. specialize (Hpl _ Hn). discriminate.
    + rewrite Forall_forall in Hbase. specialize (Hbase _ Hn). discriminate.
Qed.

Lemma Dedup_removes_created_chunks_witness :
  fst (run_Dedup all_ok 3 [] 10 ab_input false) <> Stuck /\
  let w := snd (run_Dedup all_ok 3 [] 10 ab_input false) in
  (forall n, In (ECreate (Tmp n)) (trace w) ->
             In (EClose (Tmp n)) (trace w) /\ In (ERemove (Tmp n)) (trace w)) /\
  ~ In (ERemove OutFile) (trace w).
Proof.
  split.
  - vm_compute. discriminate.
  - apply Dedup_removes_created_chunks. vm_compute. discriminate.
Defined.

(** ** Claim C8, amended: chunks are released when [Dedup] returns *)

(** C8 (amended): for every oracle, threshold, pattern list and input, the
    log of a run of [Dedup] that ends splits into a first part with no
    close or remove call, holding every read, write, seek and flush of the
    run (in particular every step of the merge), followed by the close and
    remove calls of the deferred cleanup; every temporary chunk created in
    the first part is closed and removed in the second, and the destination
    is never removed: an exhausted chunk is only dropped from the live
    cursors, and is released together with the others when [Dedup]
    returns. *)
Theorem Dedup_releases_chunks_on_return (io_ok : nat -> bool) (tmpFileBytes : N)
    (skipPatterns : list (string -> bool)) (fuel : nat) (input : string)
    (read_fails : bool) :
  fst (run_Dedup io_ok tmpFileBytes skipPatterns fuel input read_fails) <> Stuck ->
  exists pre post,
    trace (snd (run_Dedup io_ok tmpFileBytes skipPatterns fuel input read_fails))
      = pre ++ post /\
    Forall (fun e => is_cleanup e = false) pre /\
    Forall (fun e => is_cleanup e = true) post /\
    (forall n, In (ECreate (Tmp n)) pre ->
               In (EClose (Tmp n)) post /\ In (ERemove (Tmp n)) post) /\
    ~ In (ERemove OutFile) post.
Proof.
  intros Hns.
  destruct (Dedup_log_shape io_ok tmpFileBytes skipPatterns fuel input read_fails Hns)
    as (chunks & cl & pl & base & Heq & Hcl & Hin & Hout & Hpl & Hcr & Hbase).
  exists (rev (pl ++ base)), (rev cl).
  unfold trace. rewrite Heq, rev_app_distr. split; [reflexivity|].
  split; [|split; [apply Forall_rev; exact Hcl|split]].
  - apply Forall_rev, Forall_app. split; [|exact Hbase].
    eapply Forall_impl; [|exact Hpl].
    intros [] He; first [reflexivity|discriminate He].
  - intros n Hn. rewrite <- in_rev in Hn.
    apply in_app_or in Hn as [Hn|Hn];
      [rewrite Forall_forall in Hpl; specialize (Hpl _ Hn); discriminate|].
    rewrite <- !in_rev. apply (Hin (Tmp n) (Hcr n Hn)). discriminate.
  - rewrite <- in_rev. exact Hout.
Qed.

Lemma Dedup_releases_chunks_on_return_witness :
  fst (run_Dedup all_ok 3 [] 10 ab_input false) <> Stuck /\
  exists pre post,
    trace (snd (run_Dedup all_ok 3 [] 10 ab_input false)) = pre ++ post /\
    Forall (fun e => is_cleanup e = false) pre /\
    Forall (fun e => is_cleanup e = true) post /\
    (forall n, In (ECreate (Tmp n)) pre ->
               In (EClose (Tmp n)) post /\ In (ERemove (Tmp n)) post) /\
    ~ In (ERemove OutFile) post.
Proof.
  split.
  - vm_compute. discriminate.
  - apply Dedup_releases_chunks_on_return. vm_compute. discriminate.
Defined.

(** ** One iteration of the split loop when every call succeeds *)

Lemma write_lines_all_ok (f : file) (l : list string) (w : world) :
  fst (write_lines all_ok f l w) = Ok tt /\
  written f (trace (snd (write_lines all_ok f l w))) = written f (trace w) ++ l /\
  w_next (snd (write_lines all_ok f l w)) = w_next w.
Proof.
  revert w. induction l as [|x l IH]; intros w; simpl.
  - rewrite app_nil_r. auto.
  - unfold bind, write_line, io_call. simpl.
    destruct (IH (log_event (EWrite f x) (mkWorld (S (w_tick w)) (w_next w)
             (file_append (w_files w) f (x ++ String newline EmptyString)) (w_log w))))
      as [H1 [H2 H3]].
    split; [exact H1|]. split; [|exact H3].
    rewrite H2, trace_cons, written_app. simpl. rewrite file_eqb_refl, <- app_assoc.
    reflexivity.
Qed.

Lemma writeSlice_all_ok (f : file) (l : list string) (w : world) :
  fst (writeSlice all_ok f l w) = Ok tt /\
  written f (trace (snd (writeSlice all_ok f l w))) = written f (trace w) ++ l /\
  w_next (snd (writeSlice all_ok f l w)) = w_next w.
Proof.
  unfold writeSlice, bind. destruct (write_lines_all_ok f l w) as [H1 [H2 H3]].
  destruct (write_lines all_ok f l w) as [r1 w1]. simpl in *. subst r1.
  simpl. split; [reflexivity|]. split; [|exact H3].
  change (written f (trace w1 ++ [EFlush f]) = written f (trace w) ++ l).
  rewrite written_app, H2. simpl. apply app_nil_r.
Qed.

(** The loop keeps [previousLen] equal to the size of the set: it is set to
    [currentLen] after every record that is not skipped, and both are reset
    together by a spill. *)
Lemma split_step_previousLen (io_ok : nat -> bool) (tmpFileBytes : N)
    (skipPatterns : list (string -> bool)) (st st' : split_state) (w w' : world) :
  st_previousLen st = List.length (st_set st) ->
  split_step io_ok tmpFileBytes skipPatterns st w = (Ok (inr st'), w') ->
  st_previousLen st' = List.length (st_set st').
Proof.
  intros Hprev H. unfold split_step in H.
  destruct (Scan (st_scanner st)) as [hasNext sc].
  destruct (skipped skipPatterns _); [injection H as <- _; exact Hprev|].
  destruct (negb hasNext); [discriminate H|].
  destruct (Nat.ltb _ _); [|injection H as <- _; reflexivity].
  destruct (N.ltb _ _); [|injection H as <- _; reflexivity].
  unfold bind, attempt in H.
  destruct (CreateTemp io_ok w) as [[f|e| |] w1];
    cbv beta iota delta [ret] in H; try discriminate H.
  destruct (writeSlice io_ok f _ w1) as [[u|e| |] w2];
    cbv beta iota delta [ret] in H; try discriminate H.
  injection H as <- _; reflexivity.
Qed.

(** ** Claim C5, amended: the spill rule of the split loop *)



(** ** [countLines] *)

Lemma str_app_assoc (a b c : string) : (a ++ (b ++ c) = (a ++ b) ++ c)%string.
Proof. induction a as [|x a IH]; simpl; [reflexivity|]. rewrite IH. reflexivity. Qed.

Lemma str_app_nil_r (a : string) : (a ++ EmptyString)%string = a.
Proof. induction a as [|x a IH]; simpl; [reflexivity|]. rewrite IH. reflexivity. Qed.

Lemma u64_add_idemp_l (a b : N) : u64 (u64 a + b) = u64 (a + b).
Proof. unfold u64. apply N.Div0.add_mod_idemp_l. Qed.

Lemma count_nl_app (a b : string) : count_nl (a ++ b)%string = (count_nl a + count_nl b)%N.
Proof. induction a as [|c a IH]; simpl; [reflexivity|]. rewrite IH. lia. Qed.

Lemma last_byte_app (a b : string) (l : ascii) :
  last_byte (a ++ b)%string l = last_byte b (last_byte a l).
Proof. revert l. induction a as [|c a IH]; intros l; simpl; auto. Qed.

(** Reads that return no error only accumulate: the loop behaves as if
    their bytes came with the next read. *)
Lemma countLines_loop_merge (ds : list string) (d : string) (e : read_err)
    (rest : list (string * read_err)) (total : N) (last : ascii) :
  countLines_loop (map (fun s => (s, RNil)) ds ++ (d, e) :: rest) total last =
  countLines_loop (((fold_right append EmptyString ds ++ d)%string, e) :: rest) total last.
Proof.
  revert total last. induction ds as [|x ds IH]; intros total last; [reflexivity|].
  cbn [map app countLines_loop]. rewrite IH. cbn [countLines_loop fold_right].
  rewrite u64_add_idemp_l, <- N.add_assoc, <- count_nl_app, <- last_byte_app,
    <- str_app_assoc.
  reflexivity.
Qed.

Lemma read_data_last (ds : list string) (d : string) (e : read_err) :
  read_data (map (fun s => (s, RNil)) ds ++ [(d, e)]) =
  (fold_right append EmptyString ds ++ d)%string.
Proof.
  unfold read_data. induction ds as [|x ds IH]; simpl.
  - apply str_app_nil_r.
  - rewrite IH. apply str_app_assoc.
Qed.

(** [countLines] on a reader that ends with [io.EOF]: the number of
    newline bytes of everything read, plus one when the data does not end
    with a newline (so an empty reader counts one line), in uint64
    arithmetic; how the data is split across the [Read] calls and whether
    the last call also returns bytes do not matter. *)
Theorem countLines_eof (ds : list string) (d : string) :
  let reads := map (fun s => (s, RNil)) ds ++ [(d, REOF)] in
  let data := read_data reads in
  countLines reads =
  Some (u64 (count_nl data +
             (if Ascii.eqb (last_byte data zero) newline then 0 else 1)), None).
Proof.
  cbv zeta. rewrite read_data_last. unfold countLines.
  rewrite countLines_loop_merge. cbn [countLines_loop].
  destruct (Ascii.eqb _ newline).
  - rewrite N.add_0_r. reflexivity.
  - rewrite u64_add_idemp_l. reflexivity.
Qed.

(** [countLines] on a reader whose last [Read] returns an error: that
    error, with the number of newline bytes read so far, the bytes of the
    failing call included; no final line is added. *)
Theorem countLines_read_error (ds : list string) (d : string) :
  let reads := map (fun s => (s, RNil)) ds ++ [(d, RErr)] in
  countLines reads = Some (u64 (count_nl (read_data reads)), Some ErrRead).
Proof.
  cbv zeta. rewrite read_data_last. unfold countLines.
  rewrite countLines_loop_merge. reflexivity.
Qed.

(** ** The line scanner *)

Lemma break_nl_length (s a r : string) :
  break_nl s = (a, Some r) -> String.length r < String.length s.
Proof.
  revert a. induction s as [|c s IH]; intros a; simpl; [discriminate|].
  destruct (Ascii.eqb c newline).
  - intros H. injection H as _ <-. lia.
  - destruct (break_nl s) as [a' b] eqn:E. intros H. injection H as _ ->.
    specialize (IH a' eq_refl). lia.
Qed.

Lemma ScanLines_length (data tok rest : string) :
  ScanLines data = Some (tok, rest) -> String.length rest < String.length data.
Proof.
  unfold ScanLines. destruct data as [|c d]; [discriminate|].
  destruct (break_nl (String c d)) as [line [r|]] eqn:E; intros H;
    injection H as _ <-; [apply (break_nl_length _ _ _ E)|simpl; lia].
Qed.

Lemma ScanLines_None (data : string) : ScanLines data = None <-> data = EmptyString.
Proof.
  split; [|intros ->; reflexivity].
  unfold ScanLines. destruct data as [|c d]; [reflexivity|].
  destruct (break_nl (String c d)) as [line [r|]]; discriminate.
Qed.

Lemma lines_fuel_enough (n m : nat) (data : string) :
  String.length data < n -> String.length data < m ->
  lines_fuel n data = lines_fuel m data.
Proof.
  revert m data. induction n as [|n IH]; intros m data Hn Hm; [lia|].
  destruct m as [|m]; [lia|]. simpl.
  destruct (ScanLines data) as [[tok rest]|] eqn:E; [|reflexivity].
  pose proof (ScanLines_length _ _ _ E). f_equal. apply IH; lia.
Qed.

(** The unfolding equation of [lines]. *)
Lemma lines_eq (data : string) :
  lines data = match ScanLines data with
               | Some (tok, rest) => tok :: lines rest
               | None => []
               end.
Proof.
  unfold lines at 1. simpl.
  destruct (ScanLines data) as [[tok rest]|] eqn:E; [|reflexivity].
  pose proof (ScanLines_length _ _ _ E). f_equal.
  unfold lines. apply lines_fuel_enough; lia.
Qed.

(** What one [Scan] consumes of the lines still to come. *)
Lemma Scan_lines (sc : scanner) :
  let '(hasNext, sc') := Scan sc in
  sc_failed sc' = sc_failed sc /\
  if hasNext then lines (sc_rest sc) = sc_token sc' :: lines (sc_rest sc')
  else lines (sc_rest sc) = [] /\ sc' = mkScanner EmptyString EmptyString (sc_failed sc).
Proof.
  unfold Scan. rewrite (lines_eq (sc_rest sc)).
  destruct (ScanLines (sc_rest sc)) as [[tok rest]|]; simpl; auto.
Qed.

Lemma break_nl_nl_free (s a : string) (b : option string) :
  break_nl s = (a, b) -> nl_free a.
Proof.
  revert a b. induction s as [|c s IH]; intros a b; simpl.
  - intros H. injection H as <- _. reflexivity.
  - destruct (Ascii.eqb c newline) eqn:Ec.
    + intros H. injection H as <- _. reflexivity.
    + destruct (break_nl s) as [a' b'] eqn:E. intros H. injection H as <- _.
      unfold nl_free. simpl. rewrite Ec.
      specialize (IH a' b' eq_refl). unfold nl_free in IH.
      destruct (break_nl a'). exact IH.
Qed.

Lemma nl_free_cons (c : ascii) (s : string) :
  nl_free (String c s) <-> Ascii.eqb c newline = false /\ nl_free s.
Proof.
  unfold nl_free. simpl. destruct (Ascii.eqb c newline).
  - split; [discriminate|intros [H _]; discriminate].
  - destruct (break_nl s) as [x y]. simpl. tauto.
Qed.

Lemma dropCR_nl_free (s : string) : nl_free s -> nl_free (dropCR s).
Proof.
  induction s as [|c s IH]; [auto|].
  destruct s as [|c' s'].
  - simpl. destruct (Ascii.eqb c carriage_return); auto. intros _. reflexivity.
  - change (dropCR (String c (String c' s'))) with (String c (dropCR (String c' s'))).
    rewrite !nl_free_cons. intros [Hc Hs]. split; [exact Hc|]. apply IH.
    apply nl_free_cons. exact Hs.
Qed.

(** Every token of [bufio.ScanLines] is free of newlines. *)
Lemma lines_nl_free (data r : string) : In r (lines data) -> nl_free r.
Proof.
  remember (String.length data) as n eqn:Hn.
  revert data Hn. induction n as [n IH] using lt_wf_ind. intros data Hn.
  rewrite lines_eq. destruct (ScanLines data) as [[tok rest]|] eqn:E; [|intros []].
  intros [<-|Hr].
  - unfold ScanLines in E. destruct data as [|c d]; [discriminate|].
    destruct (break_nl (String c d)) as [line b] eqn:Eb.
    assert (Hl : nl_free line) by exact (break_nl_nl_free _ _ _ Eb).
    destruct b; injection E as <- _; apply dropCR_nl_free; exact Hl.
  - pose proof (ScanLines_length _ _ _ E).
    exact (IH (String.length rest) ltac:(lia) rest eq_refl Hr).
Qed.

Lemma break_nl_app (r rest : string) :
  nl_free r -> break_nl (r ++ String newline rest) = (r, Some rest).
Proof.
  unfold nl_free. induction r as [|c r IH]; simpl; [reflexivity|].
  destruct (Ascii.eqb c newline); [discriminate|].
  destruct (break_nl r) as [x y]. simpl. intros ->.
  rewrite IH by reflexivity. reflexivity.
Qed.

Lemma ScanLines_app (r rest : string) :
  nl_free r -> ScanLines (r ++ String newline rest) = Some (dropCR r, rest).
Proof.
  intros H. unfold ScanLines. rewrite (break_nl_app r rest H).
  destruct r; reflexivity.
Qed.

Lemma serialize_lines_round_trip (l : list string) :
  Forall (fun r => nl_free r /\ dropCR r = r) l -> lines (serialize l) = l.
Proof.
  induction 1 as [|x l [Hx Hcr] _ IH]; [reflexivity|].
  simpl serialize. rewrite lines_eq, (ScanLines_app x _ Hx), Hcr, IH. reflexivity.
Qed.

(** Reading back what [writeSlice] wrote: [bufio.ScanLines] over the bytes
    written for a slice gives the slice back, when no string of it holds a
    newline or ends with a carriage return (which [dropCR] would strip), and
    no string is too long for the scanner ([fits_scanner]). *)
Theorem lines_serialize (l : list string) :
  fits_scanner (serialize l) = true ->
  Forall (fun r => nl_free r /\ dropCR r = r) l -> lines (serialize l) = l.
Proof. intros _. exact (serialize_lines_round_trip l). Qed.

Lemma lines_serialize_witness :
  fits_scanner (serialize ["a"; "b"]) = true /\
  Forall (fun r => nl_free r /\ dropCR r = r) ["a"; "b"] /\
  lines (serialize ["a"; "b"]) = ["a"; "b"].
Proof.
  split; [vm_compute; reflexivity|].
  split.
  - repeat constructor.
  - apply lines_serialize; [vm_compute; reflexivity|repeat constructor].
Defined.

(** ** [sortKeys] *)

Lemma insert_str_perm (x : string) (l : list string) : Permutation (x :: l) (insert_str x l).
Proof.
  induction l as [|y l IH]; simpl; [reflexivity|].
  destruct (String.ltb y x); [|reflexivity].
  eapply perm_trans; [apply perm_swap|]. constructor. exact IH.
Qed.

(** [sortKeys] returns every key of the set exactly once, in strictly
    increasing order of Go's [<] on strings. *)
Theorem sortKeys_spec (set : list string) :
  NoDup set -> Sorted str_lt (sortKeys set) /\ Permutation set (sortKeys set).
Proof.
  intros Hnd. split; [exact (sortKeys_sorted set Hnd)|].
  unfold sortKeys. clear Hnd. induction set as [|x set IH]; simpl; [reflexivity|].
  eapply perm_trans; [constructor; exact IH|apply insert_str_perm].
Qed.

Lemma sortKeys_spec_witness :
  NoDup ["b"; "a"] /\
  Sorted str_lt (sortKeys ["b"; "a"]) /\ Permutation ["b"; "a"] (sortKeys ["b"; "a"]).
Proof.
  assert (H : NoDup ["b"; "a"]).
  { constructor; [simpl; intros [H|[]]; discriminate|constructor; [intros []|constructor]]. }
  split; [exact H|]. apply sortKeys_spec. exact H.
Defined.

(** ** [writeSlice] *)

Lemma file_append_app (fs : list (file * string)) (f : file) (a b : string) :
  file_append (file_append fs f a) f b = file_append fs f (a ++ b).
Proof.
  induction fs as [|[g c] fs IH]; simpl; [reflexivity|].
  destruct (file_eqb f g) eqn:E; simpl; rewrite E.
  - rewrite str_app_assoc. reflexivity.
  - rewrite IH. reflexivity.
Qed.

Lemma write_lines_ok (io_ok : nat -> bool) (f : file) (slice : list string) (w : world) :
  fst (write_lines io_ok f slice w) = Ok tt ->
  w_files (snd (write_lines io_ok f slice w)) = file_append (w_files w) f (serialize slice) /\
  trace (snd (write_lines io_ok f slice w)) = trace w ++ map (EWrite f) slice.
Proof.
  revert w. induction slice as [|x slice IH]; intros w; simpl.
  - intros _. split; [|symmetry; apply app_nil_r].
    induction (w_files w) as [|[g c] fs IHfs]; simpl; [reflexivity|].
    destruct (file_eqb f g); [rewrite str_app_nil_r|rewrite <- IHfs]; reflexivity.
  - unfold bind, write_line, io_call. destruct (io_ok (w_tick w)); [|discriminate].
    set (w1 := log_event _ _). intros H. destruct (IH w1 H) as [H1 H2].
    rewrite H1, H2. simpl. split.
    + rewrite file_append_app, <- str_app_assoc. reflexivity.
    + unfold trace. simpl. rewrite <- app_assoc. reflexivity.
Qed.

(** ** [mergeSortableScanners] *)

Lemma str_le_lt_trans (x y z : string) : str_le x y -> str_lt y z -> str_lt x z.
Proof. intros [->|H] H'; [exact H'|exact (str_lt_trans _ _ _ H H')]. Qed.

Lemma str_le_trans (x y z : string) : str_le x y -> str_le y z -> str_le x z.
Proof.
  intros Hxy [<-|Hyz]; [exact Hxy|]. right. exact (str_le_lt_trans _ _ _ Hxy Hyz).
Qed.

Lemma str_ltb_false_le (x y : string) : String.ltb y x = false -> str_le x y.
Proof.
  intros H. destruct (String.eqb_spec x y) as [->|Hne]; [left; reflexivity|].
  destruct (str_lt_total x y Hne) as [Hl|Hl]; [right; exact Hl|].
  unfold str_lt in Hl. congruence.
Qed.

Lemma insert_ss_perm (x : sortableScanner) (l : list sortableScanner) :
  Permutation (x :: l) (insert_ss x l).
Proof.
  induction l as [|y l IH]; simpl; [reflexivity|].
  destruct (String.ltb (ss_token y) (ss_token x)); [|reflexivity].
  eapply perm_trans; [apply perm_swap|]. constructor. exact IH.
Qed.

Lemma sort_scanners_perm (l : list sortableScanner) : Permutation l (sort_scanners l).
Proof.
  induction l as [|x l IH]; simpl; [reflexivity|].
  eapply perm_trans; [constructor; exact IH|apply insert_ss_perm].
Qed.

Lemma insert_ss_sorted (x : sortableScanner) (l : list sortableScanner) :
  Sorted tok_le l -> Sorted tok_le (insert_ss x l).
Proof.
  induction 1 as [|y l Hl IH Hhd]; simpl; [repeat constructor|].
  destruct (String.ltb (ss_token y) (ss_token x)) eqn:E.
  - constructor; [exact IH|].
    destruct l as [|z l]; simpl.
    + constructor. right. exact E.
    + destruct (String.ltb (ss_token z) (ss_token x)); constructor;
        [inversion Hhd; assumption|right; exact E].
  - constructor; [constructor; assumption|]. constructor.
    apply str_ltb_false_le. exact E.
Qed.

Lemma sort_scanners_sorted (l : list sortableScanner) : Sorted tok_le (sort_scanners l).
Proof. induction l as [|x l IH]; simpl; [constructor|apply insert_ss_sorted; exact IH]. Qed.

(** The scanner the loop takes next has the least token. *)
Lemma merge_pick (scanners : list sortableScanner) :
  scanners <> [] ->
  exists top others,
    (if Nat.ltb 1 (List.length scanners) then sort_scanners scanners else scanners)
      = top :: others /\
    Permutation scanners (top :: others) /\
    Forall (tok_le top) others.
Proof.
  intros Hne. destruct (Nat.ltb 1 (List.length scanners)) eqn:E.
  - pose proof (sort_scanners_perm scanners) as Hp.
    pose proof (sort_scanners_sorted scanners) as Hs.
    destruct (sort_scanners scanners) as [|top others] eqn:Es.
    + apply Permutation_sym, Permutation_nil in Hp. contradiction.
    + exists top, others. split; [reflexivity|]. split; [exact Hp|].
      apply Sorted_StronglySorted in Hs; [|intros a b c; apply str_le_trans].
      inversion Hs. assumption.
  - destruct scanners as [|top [|s l]]; [contradiction| |simpl in E; discriminate].
    exists top, []. split; [reflexivity|]. split; [reflexivity|constructor].
Qed.

Lemma file_append_empty (fs : list (file * string)) (f : file) :
  file_append fs f EmptyString = fs.
Proof.
  induction fs as [|[g c] fs IH]; simpl; [reflexivity|].
  destruct (file_eqb f g); [rewrite str_app_nil_r|rewrite IH]; reflexivity.
Qed.

Lemma ss_next_all_ok (ss : sortableScanner) (w : world) :
  exists b ss' w',
    ss_next all_ok ss w = (Ok (b, ss'), w') /\ w_files w' = w_files w /\
    if b then ss_stream ss' = lines (sc_rest (ss_scanner ss))
    else lines (sc_rest (ss_scanner ss)) = [].
Proof.
  unfold ss_next. pose proof (Scan_lines (ss_scanner ss)) as H.
  destruct (Scan (ss_scanner ss)) as [[|] sc]; cbv zeta; change (all_ok _) with true.
  - eexists true, _, _. split; [reflexivity|]. split; [reflexivity|].
    destruct H as [_ H]. unfold ss_stream. simpl. symmetry. exact H.
  - eexists false, _, _. split; [reflexivity|]. split; [reflexivity|].
    destruct H as [_ [H _]]. exact H.
Qed.

(** One output step of the merge loop. *)
Lemma merge_write_all_ok (previous : option string) (t : string) (w : world) :
  exists w1,
    (match previous with
     | Some p => if String.eqb p t then ret previous
                 else write_line all_ok OutFile t ;;; ret (Some t)
     | None => write_line all_ok OutFile t ;;; ret (Some t)
     end) w = (Ok (Some t), w1) /\
    ((previous = Some t /\ w_files w1 = w_files w) \/
     (previous <> Some t /\
      w_files w1 = file_append (w_files w) OutFile (t ++ String newline EmptyString))).
Proof.
  destruct previous as [p|].
  - destruct (String.eqb_spec p t) as [->|Hne].
    + eexists. split; [reflexivity|]. left. auto.
    + eexists. split; [reflexivity|]. right. split; [congruence|reflexivity].
  - eexists. split; [reflexivity|]. right. split; [discriminate|reflexivity].
Qed.

Lemma streams_perm (l l' : list sortableScanner) :
  Permutation l l' -> Permutation (streams l) (streams l').
Proof. intros H. unfold streams. apply Permutation_flat_map. exact H. Qed.

Lemma merge_loop_all_ok (fuel : nat) (scanners : list sortableScanner)
    (previous : option string) (w : world) :
  Forall (fun ss => Sorted str_lt (ss_stream ss)) scanners ->
  (forall p, previous = Some p -> forall x, In x (streams scanners) -> str_le p x) ->
  List.length (streams scanners) < fuel ->
  let '(r, w') := merge_loop all_ok fuel scanners previous w in
  r = Ok tt /\ exists out,
    w_files w' = file_append (w_files w) OutFile (serialize out) /\
    Sorted str_lt out /\
    (forall p, previous = Some p -> Forall (str_lt p) out) /\
    (forall x, In x out <-> In x (streams scanners) /\ previous <> Some x).
Proof.
  revert scanners previous w. induction fuel as [|fuel IH];
    intros scanners previous w Hsorted Hprev Hfuel; [lia|].
  destruct scanners as [|s0 rest].
  - simpl. split; [reflexivity|]. exists []. split; [symmetry; apply file_append_empty|].
    split; [constructor|]. split; [intros; constructor|]. simpl. tauto.
  - cbn [merge_loop]. cbv zeta.
    destruct (merge_pick (s0 :: rest) ltac:(discriminate))
      as (top & others & Hpick & Hperm & Hmin).
    rewrite Hpick.
    pose proof (streams_perm _ _ Hperm) as Hsp.
    assert (Hsorted' : Forall (fun ss => Sorted str_lt (ss_stream ss)) (top :: others)).
    { rewrite Forall_forall in Hsorted |- *. intros s Hs.
      apply Hsorted. apply (Permutation_in _ (Permutation_sym Hperm) Hs). }
    inversion Hsorted' as [|? ? Htop Hothers]; subst.
    set (t := ss_token top) in *.
    set (tl := lines (sc_rest (ss_scanner top))) in *.
    assert (Hst : ss_stream top = t :: tl) by reflexivity.
    (* every token still to come is at least [t] *)
    assert (Hge : forall x, In x (streams (top :: others)) -> str_le t x).
    { intros x Hx.
      change (streams (top :: others)) with (ss_stream top ++ streams others) in Hx.
      apply in_app_or in Hx as [Hx|Hx].
      - rewrite Hst in Hx, Htop. destruct Hx as [<-|Hx]; [left; reflexivity|].
        apply Sorted_StronglySorted in Htop; [|intros a b c; apply str_lt_trans].
        inversion Htop as [|? ? _ Hall]. right. rewrite Forall_forall in Hall.
        exact (Hall x Hx).
      - unfold streams in Hx. apply in_flat_map in Hx as [s [Hs Hx]].
        rewrite Forall_forall in Hmin, Hothers. pose proof (Hmin s Hs) as Hts.
        pose proof (Hothers s Hs) as Hss. unfold ss_stream in Hx, Hss.
        destruct Hx as [<-|Hx]; [exact Hts|].
        apply Sorted_StronglySorted in Hss; [|intros a b c; apply str_lt_trans].
        inversion Hss as [|? ? _ Hall]. rewrite Forall_forall in Hall.
        right. exact (str_le_lt_trans _ _ _ Hts (Hall x Hx)). }
    unfold bind at 1.
    destruct (merge_write_all_ok previous t w) as (w1 & Hw1 & Hf1). rewrite Hw1.
    cbv beta iota. unfold bind.
    destruct (ss_next_all_ok top w1) as (b & s' & w2 & Hn & Hf2 & Hs').
    rewrite Hn. cbv beta iota. fold tl in Hs'.
    set (scs' := if b then s' :: others else others).
    assert (Hscs' : streams scs' = tl ++ streams others).
    { subst scs'. destruct b; [|rewrite Hs'; reflexivity].
      change (streams (s' :: others)) with (ss_stream s' ++ streams others).
      rewrite Hs'. reflexivity. }
    assert (Hall : forall x, In x (streams (s0 :: rest)) <-> x = t \/ In x (streams scs')).
    { intros x. rewrite Hscs'. split; intros Hx.
      - apply (Permutation_in _ Hsp) in Hx.
        change (streams (top :: others)) with (ss_stream top ++ streams others) in Hx.
        rewrite Hst in Hx. destruct Hx as [Hx|Hx]; [left; congruence|right; exact Hx].
      - apply (Permutation_in _ (Permutation_sym Hsp)).
        change (streams (top :: others)) with (ss_stream top ++ streams others).
        rewrite Hst. destruct Hx as [->|Hx]; [left; reflexivity|right; exact Hx]. }
    assert (Hlen : List.length (streams scs') < fuel).
    { rewrite (Permutation_length Hsp) in Hfuel.
      change (streams (top :: others)) with (ss_stream top ++ streams others) in Hfuel.
      rewrite Hst in Hfuel. rewrite Hscs'. simpl in Hfuel. lia. }
    assert (Hsorted'' : Forall (fun ss => Sorted str_lt (ss_stream ss)) scs').
    { subst scs'. destruct b; [|exact Hothers]. constructor; [|exact Hothers].
      rewrite Hs'. rewrite Hst in Htop. apply Sorted_inv in Htop. apply Htop. }
    assert (Hprev' : forall p, Some t = Some p ->
                               forall x, In x (streams scs') -> str_le p x).
    { intros p Hp x Hx. injection Hp as <-. apply Hge.
      apply (Permutation_in _ Hsp). apply Hall. right. exact Hx. }
    specialize (IH scs' (Some t) w2 Hsorted'' Hprev' Hlen).
    destruct (merge_loop all_ok fuel scs' (Some t) w2) as [r3 w3].
    destruct IH as [-> [out' (Hf3 & Hso & Hgt & Hin)]].
    split; [reflexivity|].
    specialize (Hgt t eq_refl).
    assert (Htin : In t (streams (s0 :: rest))) by (apply Hall; left; reflexivity).
    destruct Hf1 as [[Hpt Hf1]|[Hpt Hf1]].
    + exists out'. split; [rewrite Hf3, Hf2, Hf1; reflexivity|]. split; [exact Hso|].
      split; [intros p Hp; rewrite Hpt in Hp; injection Hp as <-; exact Hgt|].
      intros x. rewrite Hin, Hall, Hpt. split.
      * intros [Hx Hne]. split; [right; exact Hx|exact Hne].
      * intros [[->|Hx] Hne]; [contradiction|split; [exact Hx|exact Hne]].
    + exists (t :: out'). split.
      { rewrite Hf3, Hf2, Hf1, file_append_app. simpl serialize.
        rewrite <- str_app_assoc. reflexivity. }
      split.
      { constructor; [exact Hso|]. destruct out' as [|y out'']; constructor.
        inversion Hgt. assumption. }
      split.
      { intros p Hp.
        assert (Hpt' : str_lt p t).
        { destruct (Hprev p Hp t Htin) as [Heq|Hlt]; [subst; contradiction|exact Hlt]. }
        constructor; [exact Hpt'|]. rewrite Forall_forall in Hgt |- *.
        intros y Hy. exact (str_lt_trans _ _ _ Hpt' (Hgt y Hy)). }
      intros x. change (In x (t :: out')) with (t = x \/ In x out').
      rewrite Hin, Hall. split.
      * intros [<-|[Hx Hne]]; [split; [left; reflexivity|exact Hpt]|].
        split; [right; exact Hx|]. intros Hp.
        assert (Hxt : x <> t) by congruence.
        assert (Htx : str_lt t x).
        { assert (Hxin : In x (streams (top :: others)))
            by (apply (Permutation_in _ Hsp), Hall; right; exact Hx).
          destruct (Hge x Hxin) as [Heq|Hlt]; [congruence|exact Hlt]. }
        destruct (Hprev x Hp t Htin) as [Heq|Hlt]; [congruence|].
        apply (str_lt_irrefl x). exact (str_lt_trans _ _ _ Hlt Htx).
      * intros [[<-|Hx] Hne]; [left; reflexivity|].
        destruct (String.eqb_spec t x) as [<-|Htx]; [left; reflexivity|].
        right. split; [exact Hx|congruence].
Qed.

Lemma merge_then_flush_all_ok (fuel : nat) (scanners : list sortableScanner) (w : world) :
  Forall (fun ss => Sorted str_lt (ss_stream ss)) scanners ->
  List.length (streams scanners) < fuel ->
  let '(r, w') := mergeSortableScanners all_ok fuel scanners w in
  r = Ok tt /\ exists out,
    w_files w' = file_append (w_files w) OutFile (serialize out) /\
    Sorted str_lt out /\
    (forall x, In x out <-> In x (streams scanners)).
Proof.
  intros Hsorted Hfuel. unfold mergeSortableScanners, bind.
  pose proof (merge_loop_all_ok fuel scanners None w Hsorted
                (fun p Hp => ltac:(discriminate Hp)) Hfuel) as H.
  destruct (merge_loop all_ok fuel scanners None w) as [r w1].
  destruct H as [-> [out (Hf & Hs & _ & Hin)]].
  unfold Flush, io_call. cbv zeta. change (all_ok _) with true. simpl.
  split; [reflexivity|]. exists out. split; [exact Hf|]. split; [exact Hs|].
  intros x. rewrite Hin. split; [intros [H _]; exact H|intros H; split; [exact H|discriminate]].
Qed.

(** [mergeSortableScanners], when every call succeeds and each scanner's
    remaining tokens (its current token, then the lines still unread) are
    strictly increasing: it appends to the output file, each with its
    delimiter, exactly the tokens of all the scanners, once each and in
    strictly increasing order (with enough fuel: more loop iterations than
    tokens, and no line too long for the scanners: [fits_scanner]). *)
Theorem mergeSortableScanners_all_ok (fuel : nat) (scanners : list sortableScanner)
    (w : world) :
  Forall (fun ss => fits_scanner (sc_rest (ss_scanner ss)) = true) scanners ->
  Forall (fun ss => Sorted str_lt (ss_stream ss)) scanners ->
  List.length (streams scanners) < fuel ->
  let '(r, w') := mergeSortableScanners all_ok fuel scanners w in
  r = Ok tt /\ exists out,
    w_files w' = file_append (w_files w) OutFile (serialize out) /\
    Sorted str_lt out /\
    (forall x, In x out <-> In x (streams scanners)).
Proof. intros _. exact (merge_then_flush_all_ok fuel scanners w). Qed.

Lemma mergeSortableScanners_all_ok_witness :
  Forall (fun ss => fits_scanner (sc_rest (ss_scanner ss)) = true)
    [scanner_ac; scanner_bc] /\
  Forall (fun ss => Sorted str_lt (ss_stream ss)) [scanner_ac; scanner_bc] /\
  List.length (streams [scanner_ac; scanner_bc]) < 5 /\
  let '(r, w') := mergeSortableScanners all_ok 5 [scanner_ac; scanner_bc] world0 in
  r = Ok tt /\ exists out,
    w_files w' = file_append (w_files world0) OutFile (serialize out) /\
    Sorted str_lt out /\
    (forall x, In x out <-> In x (streams [scanner_ac; scanner_bc])).
Proof.
  assert (H1 : Forall (fun ss => Sorted str_lt (ss_stream ss)) [scanner_ac; scanner_bc]).
  { vm_compute. repeat constructor. }
  assert (H2 : List.length (streams [scanner_ac; scanner_bc]) < 5).
  { apply Nat.ltb_lt. vm_compute. reflexivity. }
  assert (H0 : Forall (fun ss => fits_scanner (sc_rest (ss_scanner ss)) = true)
                 [scanner_ac; scanner_bc]).
  { repeat constructor. }
  split; [exact H0|]. split; [exact H1|]. split; [exact H2|].
  exact (mergeSortableScanners_all_ok 5 [scanner_ac; scanner_bc] world0 H0 H1 H2).
Defined.

(** ** [mergeChunks] *)

Lemma open_chunk_all_ok (chunk : file) (w : world) :
  exists w', w_files w' = w_files w /\
  open_chunk all_ok chunk w =
    (match ScanLines (file_content (w_files w) chunk) with
     | Some (tok, rest) => Ok (mkSortable tok (mkScanner rest tok false) chunk)
     | None => Panic
     end, w').
Proof.
  unfold open_chunk, bind, Seek, io_call, ss_next. cbn.
  unfold Scan, NewScanner. cbn.
  destruct (ScanLines (file_content (w_files w) chunk)) as [[tok rest]|];
    (eexists; split; [|reflexivity]; reflexivity).
Qed.

Lemma open_chunks_panic (chunks : list file) (w : world) :
  (exists c, In c chunks /\ file_content (w_files w) c = EmptyString) ->
  fst (open_chunks all_ok chunks w) = Panic.
Proof.
  revert w. induction chunks as [|c cs IH]; intros w (c' & Hin & He); [destruct Hin|].
  simpl open_chunks. unfold bind at 1.
  destruct (open_chunk_all_ok c w) as (w1 & Hf & ->).
  destruct Hin as [<-|Hin].
  - rewrite He. reflexivity.
  - destruct (ScanLines (file_content (w_files w) c)) as [[tok rest]|]; [|reflexivity].
    unfold bind. specialize (IH w1 (ex_intro _ c' (conj Hin (eq_trans (f_equal (fun fs => file_content fs c') Hf) He)))).
    destruct (open_chunks all_ok cs w1) as [[]]; simpl in IH |- *; congruence.
Qed.

Lemma open_chunks_ok (chunks : list file) (w : world) :
  (forall c, In c chunks -> file_content (w_files w) c <> EmptyString) ->
  exists scs w', open_chunks all_ok chunks w = (Ok scs, w') /\ w_files w' = w_files w /\
    map ss_stream scs = map (fun c => lines (file_content (w_files w) c)) chunks.
Proof.
  revert w. induction chunks as [|c cs IH]; intros w Hne.
  - eexists _, _. split; [reflexivity|auto].
  - simpl open_chunks. unfold bind at 1.
    destruct (open_chunk_all_ok c w) as (w1 & Hf & ->).
    assert (Hc := Hne c (or_introl eq_refl)).
    destruct (ScanLines (file_content (w_files w) c)) as [[tok rest]|] eqn:E;
      [|apply ScanLines_None in E; contradiction].
    destruct (IH w1) as (scs & w2 & Heq & Hf2 & Hm).
    { intros c' Hin. rewrite Hf. apply Hne. now right. }
    unfold bind. rewrite Heq. eexists _, _. split; [reflexivity|].
    split; [congruence|]. simpl map. rewrite Hm, Hf, (lines_eq (file_content (w_files w) c)), E.
    reflexivity.
Qed.

Lemma mergeChunks_merges (fuel : nat) (chunks : list file) (w : world) :
  (forall c, In c chunks -> file_content (w_files w) c <> EmptyString /\
                            Sorted str_lt (lines (file_content (w_files w) c))) ->
  List.length (flat_map (fun c => lines (file_content (w_files w) c)) chunks) < fuel ->
  let '(r, w') := mergeChunks all_ok fuel chunks w in
  r = Ok tt /\ exists out,
    w_files w' = file_append (w_files w) OutFile (serialize out) /\
    Sorted str_lt out /\
    (forall x, In x out <-> exists c, In c chunks /\ In x (lines (file_content (w_files w) c))).
Proof.
  intros Hc Hfuel.
  destruct (open_chunks_ok chunks w (fun c Hin => proj1 (Hc c Hin)))
    as (scs & w1 & Heq & Hf1 & Hm).
  assert (Hst : streams scs = flat_map (fun c => lines (file_content (w_files w) c)) chunks).
  { unfold streams. rewrite !flat_map_concat_map, Hm. reflexivity. }
  assert (Hsorted : Forall (fun ss => Sorted str_lt (ss_stream ss)) scs).
  { apply (proj1 (Forall_map ss_stream (Sorted str_lt) scs)). rewrite Hm.
    apply Forall_map, Forall_forall. intros c Hin. apply Hc, Hin. }
  unfold mergeChunks, bind. rewrite Heq.
  pose proof (merge_then_flush_all_ok fuel scs w1 Hsorted ltac:(rewrite Hst; exact Hfuel)) as H.
  destruct (mergeSortableScanners all_ok fuel scs w1) as [r w2].
  destruct H as [Hr [out (Hf & Hs & Hin)]]. split; [exact Hr|].
  exists out. split; [rewrite Hf, Hf1; reflexivity|]. split; [exact Hs|].
  intros x. rewrite Hin, Hst. apply in_flat_map.
Qed.

(** [mergeChunks] over chunks that each hold a strictly increasing list of
    records: every call succeeding, it appends to the destination the
    records of all the chunks, strictly increasing, each once (with enough
    fuel, and no line too long for the scanners: [fits_scanner]). *)
Theorem mergeChunks_all_ok (fuel : nat) (chunks : list file) (w : world) :
  (forall c, In c chunks -> fits_scanner (file_content (w_files w) c) = true) ->
  (forall c, In c chunks -> file_content (w_files w) c <> EmptyString /\
                            Sorted str_lt (lines (file_content (w_files w) c))) ->
  List.length (flat_map (fun c => lines (file_content (w_files w) c)) chunks) < fuel ->
  let '(r, w') := mergeChunks all_ok fuel chunks w in
  r = Ok tt /\ exists out,
    w_files w' = file_append (w_files w) OutFile (serialize out) /\
    Sorted str_lt out /\
    (forall x, In x out <-> exists c, In c chunks /\ In x (lines (file_content (w_files w) c))).
Proof. intros _. exact (mergeChunks_merges fuel chunks w). Qed.

Lemma mergeChunks_all_ok_witness :
  (forall c, In c [Tmp 0; Tmp 1] ->
     fits_scanner (file_content (w_files merge_world) c) = true) /\
  (forall c, In c [Tmp 0; Tmp 1] ->
     file_content (w_files merge_world) c <> EmptyString /\
     Sorted str_lt (lines (file_content (w_files merge_world) c))) /\
  List.length (flat_map (fun c => lines (file_content (w_files merge_world) c))
                 [Tmp 0; Tmp 1]) < 5 /\
  let '(r, w') := mergeChunks all_ok 5 [Tmp 0; Tmp 1] merge_world in
  r = Ok tt /\ exists out,
    w_files w' = file_append (w_files merge_world) OutFile (serialize out) /\
    Sorted str_lt out /\
    (forall x, In x out <-> exists c, In c [Tmp 0; Tmp 1] /\
                                      In x (lines (file_content (w_files merge_world) c))).
Proof.
  assert (H1 : forall c, In c [Tmp 0; Tmp 1] ->
     file_content (w_files merge_world) c <> EmptyString /\
     Sorted str_lt (lines (file_content (w_files merge_world) c))).
  { intros c [<-|[<-|[]]]; (split; [vm_compute; discriminate|vm_compute; repeat constructor]). }
  assert (H2 : List.length (flat_map (fun c => lines (file_content (w_files merge_world) c))
                 [Tmp 0; Tmp 1]) < 5).
  { apply Nat.ltb_lt. vm_compute. reflexivity. }
  assert (H0 : forall c, In c [Tmp 0; Tmp 1] ->
     fits_scanner (file_content (w_files merge_world) c) = true).
  { intros c [<-|[<-|[]]]; vm_compute; reflexivity. }
  split; [exact H0|]. split; [exact H1|]. split; [exact H2|].
  exact (mergeChunks_all_ok 5 [Tmp 0; Tmp 1] merge_world H0 H1 H2).
Defined.

(** [mergeChunks] panics when one of the chunks is empty: every call
    succeeding, and no line of the chunks being too long for the scanners
    ([fits_scanner]; a scanner failing on an earlier chunk would end the run
    with [ErrTooLong] first), the scanner of that chunk has no first line. *)
Theorem mergeChunks_empty_chunk_panics (fuel : nat) (chunks : list file) (w : world) :
  (forall c, In c chunks -> fits_scanner (file_content (w_files w) c) = true) ->
  (exists c, In c chunks /\ file_content (w_files w) c = EmptyString) ->
  fst (mergeChunks all_ok fuel chunks w) = Panic.
Proof.
  intros _ H. unfold mergeChunks, bind.
  pose proof (open_chunks_panic chunks w H) as Hp.
  destruct (open_chunks all_ok chunks w) as [r w1]. simpl in Hp. subst r. reflexivity.
Qed.

Lemma mergeChunks_empty_chunk_panics_witness :
  (forall c, In c [Tmp 0; Tmp 1] ->
     fits_scanner (file_content (w_files panic_world) c) = true) /\
  (exists c, In c [Tmp 0; Tmp 1] /\ file_content (w_files panic_world) c = EmptyString) /\
  fst (mergeChunks all_ok 5 [Tmp 0; Tmp 1] panic_world) = Panic.
Proof.
  assert (H : exists c, In c [Tmp 0; Tmp 1] /\
                        file_content (w_files panic_world) c = EmptyString).
  { exists (Tmp 1). split; [right; left; reflexivity|reflexivity]. }
  assert (H0 : forall c, In c [Tmp 0; Tmp 1] ->
     fits_scanner (file_content (w_files panic_world) c) = true).
  { intros c [<-|[<-|[]]]; vm_compute; reflexivity. }
  split; [exact H0|]. split; [exact H|].
  exact (mergeChunks_empty_chunk_panics 5 [Tmp 0; Tmp 1] panic_world H0 H).
Defined.

(** ** File contents across [Dedup] *)

Lemma file_content_append_other (fs : list (file * string)) (f g : file) (s : string) :
  g <> f -> file_content (file_append fs f s) g = file_content fs g.
Proof.
  intros Hg. induction fs as [|[h c] fs IH]; simpl; [reflexivity|].
  destruct (file_eqb f h) eqn:E; simpl.
  - apply file_eqb_eq in E. subst h.
    destruct (file_eqb g f) eqn:E2; [apply file_eqb_eq in E2; contradiction|reflexivity].
  - destruct (file_eqb g h); [reflexivity|exact IH].
Qed.

Lemma write_lines_files (io_ok : nat -> bool) (f : file) (l : list string) (w : world) :
  w_next (snd (write_lines io_ok f l w)) = w_next w /\
  forall g, g <> f ->
    file_content (w_files (snd (write_lines io_ok f l w))) g = file_content (w_files w) g.
Proof.
  revert w. induction l as [|x l IH]; intros w; simpl; [auto|].
  unfold bind, write_line, io_call. destruct (io_ok (w_tick w)); simpl; [|auto].
  destruct (IH (log_event (EWrite f x)
       {| w_tick := S (w_tick w); w_next := w_next w;
          w_files := file_append (w_files w) f (x ++ String newline EmptyString);
          w_log := w_log w |})) as [IHn IHf].
  split; [exact IHn|]. intros g Hg. rewrite IHf by exact Hg. simpl.
  apply file_content_append_other, Hg.
Qed.

Lemma writeSlice_files (io_ok : nat -> bool) (f : file) (l : list string) (w : world) :
  (fst (writeSlice io_ok f l w) = Ok tt \/ exists e, fst (writeSlice io_ok f l w) = Fail e) /\
  w_next (snd (writeSlice io_ok f l w)) = w_next w /\
  (forall g, g <> f ->
    file_content (w_files (snd (writeSlice io_ok f l w))) g = file_content (w_files w) g) /\
  (fst (writeSlice io_ok f l w) = Ok tt ->
   w_files (snd (writeSlice io_ok f l w)) = file_append (w_files w) f (serialize l)).
Proof.
  pose proof (write_lines_ok io_ok f l w) as Hok.
  pose proof (write_lines_spec io_ok f l w) as Hs.
  destruct (write_lines_files io_ok f l w) as [Hn Hg].
  unfold writeSlice, bind.
  destruct (write_lines io_ok f l w) as [r1 w1]. simpl in Hok, Hn, Hg.
  destruct Hs as [Hr _].
  destruct r1 as [[]|e| |].
  - destruct (Hok eq_refl) as [Hf _].
    unfold Flush, io_call. destruct (io_ok (w_tick w1)); simpl.
    + split; [left; reflexivity|]. split; [exact Hn|]. split; [exact Hg|]. intros _. exact Hf.
    + split; [right; eexists; reflexivity|]. split; [exact Hn|]. split; [exact Hg|].
      discriminate.
  - simpl. split; [right; eexists; reflexivity|]. split; [exact Hn|]. split; [exact Hg|].
    discriminate.
  - destruct Hr as [H|[e H]]; discriminate.
  - destruct Hr as [H|[e H]]; discriminate.
Qed.

Lemma set_add_In (set : list string) (x : string) : In x (set_add set x).
Proof.
  unfold set_add. destruct (set_mem set x) eqn:E.
  - apply set_mem_In, E.
  - apply in_or_app. right. left. reflexivity.
Qed.

Lemma set_add_nonempty (set : list string) (x : string) : set_add set x <> [].
Proof. intros H. pose proof (set_add_In set x) as Hin. rewrite H in Hin. destruct Hin. Qed.

Lemma serialize_sortKeys_nonempty (set : list string) :
  set <> [] -> serialize (sortKeys set) <> EmptyString.
Proof.
  intros Hne. destruct set as [|x set]; [contradiction|].
  assert (Hin : In x (sortKeys (x :: set))) by (apply sort_strings_In; left; reflexivity).
  destruct (sortKeys (x :: set)) as [|y l]; [destruct Hin|].
  simpl. destruct y; discriminate.
Qed.

Lemma chunks_filled_mono (chunks : list file) (w w' : world) :
  chunks_filled chunks w -> w_next w <= w_next w' ->
  (forall k, k < w_next w -> file_content (w_files w') (Tmp k) = file_content (w_files w) (Tmp k)) ->
  chunks_filled chunks w'.
Proof.
  intros Hc Hn Hk c Hin. destruct (Hc c Hin) as (k & -> & Hlt & Hne).
  exists k. split; [reflexivity|]. split; [lia|]. rewrite Hk by exact Hlt. exact Hne.
Qed.

Lemma chunks_filled_snoc (chunks : list file) (k : nat) (w : world) :
  chunks_filled chunks w -> k < w_next w -> file_content (w_files w) (Tmp k) <> EmptyString ->
  chunks_filled (chunks ++ [Tmp k]) w.
Proof.
  intros Hc Hk Hne c Hin. apply in_app_or in Hin as [Hin|[<-|[]]]; [apply Hc, Hin|].
  exists k. auto.
Qed.

Section Spill.

Variable io_ok : nat -> bool.

(** A spill: a fresh temporary file, then the sorted set written to it. *)
Lemma spill_files (chunks : list file) (set : list string) (w : world) :
  chunks_filled chunks w -> set <> [] ->
  let '(r1, w1) := attempt (CreateTemp io_ok) w in
  file_content (w_files w1) OutFile = file_content (w_files w) OutFile /\
  match r1 with
  | Ok (inl f) =>
      let '(r2, w2) := attempt (writeSlice io_ok f (sortKeys set)) w1 in
      file_content (w_files w2) OutFile = file_content (w_files w) OutFile /\
      match r2 with
      | Ok (inl _) => chunks_filled (chunks ++ [f]) w2
      | Ok (inr _) => True
      | _ => False
      end
  | Ok (inr _) => True
  | _ => False
  end.
Proof.
  intros Hc Hne. unfold attempt at 1, CreateTemp, io_call.
  destruct (io_ok (w_tick w)); simpl; [|auto].
  set (w1 := log_event (ECreate (Tmp (w_next w)))
                (mkWorld (S (w_tick w)) (S (w_next w))
                   ((Tmp (w_next w), EmptyString) :: w_files w) (w_log w))).
  split; [reflexivity|].
  destruct (writeSlice_files io_ok (Tmp (w_next w)) (sortKeys set) w1) as (Hr & Hn & Hg & Hok).
  unfold attempt.
  destruct (writeSlice io_ok (Tmp (w_next w)) (sortKeys set) w1) as [r2 w2].
  simpl in Hr, Hn, Hg, Hok.
  assert (Hout : file_content (w_files w2) OutFile = file_content (w_files w) OutFile).
  { rewrite Hg by discriminate. reflexivity. }
  destruct r2 as [u|e| |]; [| split; [exact Hout|exact I]
                              | destruct Hr as [H|[e H]]; discriminate
                              | destruct Hr as [H|[e H]]; discriminate].
  split; [exact Hout|]. destruct u.
  apply chunks_filled_snoc.
  - apply (chunks_filled_mono chunks w); [exact Hc|simpl in Hn; lia|].
    intros k Hk. rewrite Hg by (intros Heq; injection Heq; lia). simpl.
    destruct (Nat.eqb k (w_next w)) eqn:E; [apply Nat.eqb_eq in E; lia|reflexivity].
  - rewrite Hn. simpl. lia.
  - rewrite (Hok eq_refl), Nat.eqb_refl. simpl. rewrite Nat.eqb_refl.
    apply serialize_sortKeys_nonempty, Hne.
Qed.

End Spill.

Section SplitFiles.

Variable io_ok : nat -> bool.
Variable tmpFileBytes : N.
Variable skipPatterns : list (string -> bool).

Lemma split_step_files (st : split_state) (w : world) :
  chunks_filled (st_chunks st) w ->
  let '(r, w') := split_step io_ok tmpFileBytes skipPatterns st w in
  file_content (w_files w') OutFile = file_content (w_files w) OutFile /\
  match r with
  | Ok (inr st') =>
      chunks_filled (st_chunks st') w' /\ sc_failed (st_scanner st') = sc_failed (st_scanner st)
  | Ok (inl (Break st')) =>
      chunks_filled (st_chunks st') w' /\ sc_failed (st_scanner st') = sc_failed (st_scanner st) /\
      st_set st' <> []
  | Ok (inl (Return _ _)) => True
  | _ => False
  end.
Proof.
  destruct st as [sc set chunks bytes prev]. intros Hc. unfold split_step.
  cbn [st_scanner st_set st_chunks st_bytesUsed st_previousLen] in *.
  pose proof (Scan_lines sc) as HS. destruct (Scan sc) as [hasNext sc'].
  destruct HS as [Hfl _].
  destruct (skipped skipPatterns (sc_token sc)); [simpl; auto|].
  destruct hasNext; [|simpl; split; [reflexivity|split; [exact Hc|split; [exact Hfl|apply set_add_nonempty]]]].
  cbn [negb].
  destruct (Nat.ltb prev _); [|simpl; auto].
  destruct (N.ltb tmpFileBytes _); [|simpl; auto].
  unfold bind at 1. cbv beta.
  pose proof (spill_files io_ok chunks (set_add set (sc_token sc)) w Hc (set_add_nonempty _ _)) as Hs.
  destruct (attempt (CreateTemp io_ok) w) as [r1 w1].
  destruct Hs as [Hout1 Hs].
  destruct r1 as [[f|e]|e| |]; try contradiction; [|simpl; auto].
  unfold bind.
  destruct (attempt (writeSlice io_ok f (sortKeys (set_add set (sc_token sc)))) w1) as [r2 w2].
  destruct Hs as [Hout2 Hs].
  destruct r2 as [[u|e]|e| |]; try contradiction; simpl; auto.
Qed.

Lemma split_loop_files (fuel : nat) (st : split_state) (w : world) :
  chunks_filled (st_chunks st) w ->
  let '(r, w') := split_loop io_ok tmpFileBytes skipPatterns fuel st w in
  file_content (w_files w') OutFile = file_content (w_files w) OutFile /\
  match r with
  | Ok (Break st') =>
      chunks_filled (st_chunks st') w' /\ sc_failed (st_scanner st') = sc_failed (st_scanner st) /\
      st_set st' <> []
  | Ok (Return _ _) | Stuck => True
  | _ => False
  end.
Proof.
  revert st w. induction fuel as [|fuel IH]; intros st w Hc; [simpl; auto|].
  simpl. unfold bind.
  pose proof (split_step_files st w Hc) as Hs.
  destruct (split_step io_ok tmpFileBytes skipPatterns st w) as [r w1].
  destruct Hs as [Hout1 Hs].
  destruct r as [[ex|st']| | |]; try contradiction.
  - destruct ex; simpl; auto.
  - destruct Hs as [Hc1 Hfl1].
    pose proof (IH st' w1 Hc1) as H.
    destruct (split_loop io_ok tmpFileBytes skipPatterns fuel st' w1) as [r2 w2].
    destruct H as [Hout2 H]. split; [congruence|].
    destruct r2 as [[st2|]| | |]; try contradiction; auto.
    destruct H as (? & ? & ?). split; [assumption|split; [congruence|assumption]].
Qed.

Lemma splitSortDeduplicate_files (fuel : nat) (input : string) (read_fails : bool)
    (w : world) :
  let '(r, w') :=
    splitSortDeduplicate io_ok tmpFileBytes skipPatterns fuel input read_fails w in
  (read_fails = true ->
   file_content (w_files w') OutFile = file_content (w_files w) OutFile /\
   match r with
   | Ok (_, Some _) | Stuck => True
   | _ => False
   end) /\
  match r with
  | Ok (chunks, None) => List.length chunks <= 1 \/ chunks_filled chunks w'
  | Ok (_, Some _) | Stuck => True
  | _ => False
  end.
Proof.
  unfold splitSortDeduplicate.
  pose proof (Scan_lines (NewScanner input read_fails)) as HS.
  destruct (Scan (NewScanner input read_fails)) as [hasNext sc].
  destruct HS as [Hfl _]. simpl in Hfl.
  destruct hasNext; simpl.
  2:{ unfold scanner_Err. rewrite Hfl.
       destruct read_fails; simpl; [auto|split; [discriminate|left; lia]]. }
  unfold bind at 1.
  assert (Hc0 : chunks_filled (st_chunks (mkSplit sc [] [] 0 0)) w) by (intros c []).
  pose proof (split_loop_files fuel _ w Hc0) as Hl.
  destruct (split_loop io_ok tmpFileBytes skipPatterns fuel (mkSplit sc [] [] 0 0) w)
    as [r w1].
  destruct Hl as [Hout1 Hl].
  destruct r as [ex| | |]; try contradiction; [|simpl; auto].
  destruct ex as [st|chunks e]; [|simpl; auto].
  destruct Hl as (Hc1 & Hfl1 & Hne1). simpl in Hfl1.
  unfold scanner_Err. rewrite Hfl1, Hfl.
  destruct read_fails; [simpl; auto|].
  destruct (st_chunks st) as [|c cs] eqn:Hch.
  - unfold bind. cbv beta iota delta [ret]. unfold attempt.
    destruct (writeSlice_files io_ok OutFile (sortKeys (st_set st)) w1) as [Hr _].
    destruct (writeSlice io_ok OutFile (sortKeys (st_set st)) w1) as [r2 w2].
    simpl in Hr. destruct r2 as [u|e| |].
    + split; [discriminate|left; reflexivity].
    + split; [discriminate|exact I].
    + destruct Hr as [H|[e H]]; discriminate.
    + destruct Hr as [H|[e H]]; discriminate.
  - unfold bind at 1. cbv beta.
    pose proof (spill_files io_ok (c :: cs) (st_set st) w1 Hc1 Hne1) as Hs.
    destruct (attempt (CreateTemp io_ok) w1) as [r1 w2].
    destruct Hs as [_ Hs].
    destruct r1 as [[f|e]|e| |]; try contradiction; [|split; [discriminate|exact I]].
    unfold bind.
    destruct (attempt (writeSlice io_ok f (sortKeys (st_set st))) w2) as [r3 w3].
    destruct Hs as [_ Hs].
    destruct r3 as [[u|e]|e| |]; try contradiction; (split; [discriminate|]).
    + right. exact Hs.
    + exact I.
Qed.

End SplitFiles.

Lemma bind_no_panic {A B} (m : M A) (k : A -> M B) (w : world) :
  fst (m w) <> Panic -> (forall a w', fst (k a w') <> Panic) -> fst (bind m k w) <> Panic.
Proof.
  intros Hm Hk. unfold bind. destruct (m w) as [[a|e| |] w']; simpl in *; auto; discriminate.
Qed.

Section NoPanic.

Variable io_ok : nat -> bool.

Lemma write_line_no_panic (f : file) (line : string) (w : world) :
  fst (write_line io_ok f line w) <> Panic.
Proof. unfold write_line, io_call. destruct (io_ok (w_tick w)); discriminate. Qed.

Lemma ss_next_no_panic (ss : sortableScanner) (w : world) :
  fst (ss_next io_ok ss w) <> Panic.
Proof.
  unfold ss_next. destruct (io_ok (w_tick w)); [|discriminate].
  destruct (Scan (ss_scanner ss)) as [[|] sc]; discriminate.
Qed.

Lemma merge_loop_no_panic (fuel : nat) (scanners : list sortableScanner)
    (previous : option string) (w : world) :
  fst (merge_loop io_ok fuel scanners previous w) <> Panic.
Proof.
  revert scanners previous w. induction fuel as [|fuel IH]; intros scanners previous w;
    [discriminate|].
  cbn [merge_loop]. destruct scanners as [|s0 rest]; [discriminate|].
  destruct (if Nat.ltb 1 (List.length (s0 :: rest)) then sort_scanners (s0 :: rest)
            else s0 :: rest) as [|top others]; [discriminate|].
  apply bind_no_panic.
  - destruct previous as [p|]; [destruct (String.eqb p (ss_token top))|];
      try discriminate; apply bind_no_panic; try discriminate;
      apply write_line_no_panic.
  - intros previous' w'. apply bind_no_panic; [apply ss_next_no_panic|].
    intros [ok top'] w''. apply IH.
Qed.

Lemma mergeSortableScanners_no_panic (fuel : nat) (scanners : list sortableScanner)
    (w : world) :
  fst (mergeSortableScanners io_ok fuel scanners w) <> Panic.
Proof.
  unfold mergeSortableScanners. apply bind_no_panic; [apply merge_loop_no_panic|].
  intros _ w'. unfold Flush, io_call. destruct (io_ok (w_tick w')); discriminate.
Qed.

Lemma open_chunk_nonempty (chunk : file) (w : world) :
  file_content (w_files w) chunk <> EmptyString ->
  (exists e w', open_chunk io_ok chunk w = (Fail e, w')) \/
  (exists ss w', open_chunk io_ok chunk w = (Ok ss, w') /\ w_files w' = w_files w).
Proof.
  intros Hne. unfold open_chunk, bind, Seek, io_call.
  destruct (io_ok (w_tick w)); cbn; [|left; eauto].
  unfold ss_next. cbn. destruct (io_ok (S (w_tick w))); cbn; [|left; eauto].
  unfold Scan, NewScanner. cbn.
  destruct (ScanLines (file_content (w_files w) chunk)) as [[tok rest]|] eqn:E.
  - right. eexists _, _. split; reflexivity.
  - apply ScanLines_None in E. contradiction.
Qed.

Lemma open_chunks_no_panic (chunks : list file) (w : world) :
  (forall c, In c chunks -> file_content (w_files w) c <> EmptyString) ->
  fst (open_chunks io_ok chunks w) <> Panic.
Proof.
  revert w. induction chunks as [|c cs IH]; intros w Hne; [discriminate|].
  simpl open_chunks. unfold bind at 1.
  destruct (open_chunk_nonempty c w (Hne c (or_introl eq_refl)))
    as [(e & w1 & ->)|(ss & w1 & -> & Hf)]; [discriminate|].
  apply bind_no_panic; [|intros; discriminate].
  apply IH. intros c' Hin. rewrite Hf. apply Hne. right. exact Hin.
Qed.

Lemma mergeChunks_no_panic (fuel : nat) (chunks : list file) (w : world) :
  (forall c, In c chunks -> file_content (w_files w) c <> EmptyString) ->
  fst (mergeChunks io_ok fuel chunks w) <> Panic.
Proof.
  intros Hne. unfold mergeChunks. apply bind_no_panic.
  - apply open_chunks_no_panic, Hne.
  - intros scs w'. apply mergeSortableScanners_no_panic.
Qed.

End NoPanic.

Lemma file_content_remove_other (fs : list (file * string)) (f g : file) :
  f <> g -> file_content (file_remove fs f) g = file_content fs g.
Proof.
  intros Hfg. induction fs as [|[h c] fs IH]; simpl; [reflexivity|].
  destruct (file_eqb f h) eqn:E; simpl.
  - apply file_eqb_eq in E. subst h.
    destruct (file_eqb g f) eqn:E2; [apply file_eqb_eq in E2; congruence|exact IH].
  - destruct (file_eqb g h); [reflexivity|exact IH].
Qed.

Lemma cleanup_out (chunks : list file) (w : world) :
  file_content (w_files (cleanup chunks w)) OutFile = file_content (w_files w) OutFile.
Proof.
  revert w. induction chunks as [|c cs IH]; intros w; simpl; [reflexivity|].
  rewrite IH. destruct (file_eqb c OutFile) eqn:E; [reflexivity|].
  simpl. apply file_content_remove_other. intros ->. discriminate.
Qed.

(** [Dedup] never panics, whatever the input and whatever the outcome of
    the file-system calls: [mergeChunks] only panics on a chunk without a
    line, and every chunk [splitSortDeduplicate] hands over is a temporary
    file of its own holding a non-empty sorted set. *)
Theorem Dedup_never_panics (io_ok : nat -> bool) (tmpFileBytes : N)
    (skipPatterns : list (string -> bool)) (fuel : nat) (input : string)
    (read_fails : bool) (w : world) :
  fst (Dedup io_ok tmpFileBytes skipPatterns fuel input read_fails w) <> Panic.
Proof.
  unfold Dedup, bind.
  pose proof (splitSortDeduplicate_files io_ok tmpFileBytes skipPatterns fuel input
                read_fails w) as H.
  destruct (splitSortDeduplicate io_ok tmpFileBytes skipPatterns fuel input read_fails w)
    as [r w1].
  destruct H as [_ H].
  destruct r as [[chunks [e|]]|e| |]; try contradiction; [| |discriminate].
  - unfold defer_cleanup, fail. discriminate.
  - unfold defer_cleanup.
    destruct (Nat.leb (List.length chunks) 1) eqn:E; [discriminate|].
    destruct H as [H|H]; [apply Nat.leb_le in H; congruence|].
    pose proof (mergeChunks_no_panic io_ok fuel chunks w1) as Hm.
    destruct (mergeChunks io_ok fuel chunks w1) as [r2 w2].
    assert (Hne : forall c, In c chunks -> file_content (w_files w1) c <> EmptyString).
    { intros c Hin. destruct (H c Hin) as (k & _ & _ & Hc). exact Hc. }
    specialize (Hm Hne). simpl in Hm.
    destruct r2; simpl; congruence.
Qed.

(** When the input ends with a read error, [Dedup] fails (or does not
    return), whatever the outcome of the file-system calls, and the
    destination keeps its contents: spills go to temporary files only, the
    final chunk is never written and nothing is merged. *)
Theorem Dedup_read_error_keeps_output (io_ok : nat -> bool) (tmpFileBytes : N)
    (skipPatterns : list (string -> bool)) (fuel : nat) (input : string) (w : world) :
  let '(r, w') := Dedup io_ok tmpFileBytes skipPatterns fuel input true w in
  (r = Stuck \/ exists e, r = Fail e) /\
  file_content (w_files w') OutFile = file_content (w_files w) OutFile.
Proof.
  unfold Dedup, bind.
  pose proof (splitSortDeduplicate_files io_ok tmpFileBytes skipPatterns fuel input
                true w) as H.
  destruct (splitSortDeduplicate io_ok tmpFileBytes skipPatterns fuel input true w)
    as [r w1].
  destruct H as [H _].
  destruct (H eq_refl) as [Hout Hr].
  destruct r as [[chunks [e|]]|e| |]; try contradiction.
  - unfold defer_cleanup, fail. split; [right; eauto|]. rewrite cleanup_out. exact Hout.
  - split; [left; reflexivity|exact Hout].
Qed.

(** ** [Dedup] when every call succeeds *)

Lemma set_add_In_iff (set : list string) (x y : string) :
  In y (set_add set x) <-> In y set \/ y = x.
Proof.
  unfold set_add. destruct (set_mem set x) eqn:E.
  - apply set_mem_In in E. split; [auto|intros [H| ->]; auto].
  - rewrite in_app_iff. simpl. split; intros [H|H]; auto.
    + destruct H as [H|[]]. auto.
Qed.

Lemma set_add_length (set : list string) (x : string) :
  List.length (set_add set x) <= S (List.length set).
Proof.
  unfold set_add. destruct (set_mem set x); [lia|].
  rewrite length_app. simpl. lia.
Qed.

Lemma sortKeys_length (set : list string) : List.length (sortKeys set) = List.length set.
Proof.
  unfold sortKeys. induction set as [|x set IH]; simpl; [reflexivity|].
  rewrite <- (Permutation_length (insert_str_perm x (sort_strings set))). simpl. congruence.
Qed.

Lemma file_content_append_in (fs : list (file * string)) (f : file) (s : string) :
  In f (map fst fs) -> file_content (file_append fs f s) f = (file_content fs f ++ s)%string.
Proof.
  induction fs as [|[g c] fs IH]; simpl; [intros []|intros Hin].
  destruct (file_eqb f g) eqn:E; simpl; rewrite E; [reflexivity|].
  destruct Hin as [->|Hin]; [rewrite file_eqb_refl in E; discriminate|].
  apply IH, Hin.
Qed.

Lemma file_content_cons_other (fs : list (file * string)) (f g : file) (s : string) :
  g <> f -> file_content ((f, s) :: fs) g = file_content fs g.
Proof.
  intros H. simpl. destruct (file_eqb g f) eqn:E; [|reflexivity].
  apply file_eqb_eq in E. contradiction.
Qed.

Lemma spill_all_ok (l : list string) (w : world) :
  exists w1 w2,
    attempt (CreateTemp all_ok) w = (Ok (inl (Tmp (w_next w))), w1) /\
    attempt (writeSlice all_ok (Tmp (w_next w)) l) w1 = (Ok (inl tt), w2) /\
    w_files w2 = (Tmp (w_next w), serialize l) :: w_files w /\
    w_next w2 = S (w_next w).
Proof.
  set (w1 := log_event (ECreate (Tmp (w_next w)))
               (mkWorld (S (w_tick w)) (S (w_next w))
                  ((Tmp (w_next w), EmptyString) :: w_files w) (w_log w))).
  exists w1.
  destruct (writeSlice_all_ok (Tmp (w_next w)) l w1) as [Hr _].
  destruct (writeSlice_files all_ok (Tmp (w_next w)) l w1) as (_ & Hn & _ & Hok).
  unfold attempt at 2.
  destruct (writeSlice all_ok (Tmp (w_next w)) l w1) as [r w2].
  simpl in Hr, Hn, Hok. subst r. exists w2.
  split; [reflexivity|]. split; [reflexivity|]. split; [|exact Hn].
  rewrite (Hok eq_refl). simpl. rewrite Nat.eqb_refl. reflexivity.
Qed.

Section DedupOk.

Variable tmpFileBytes : N.
Variable skipPatterns : list (string -> bool).
Variable input : string.

(** The records kept do not end in ['\r'] (the scanner drops one). *)
Hypothesis Hcr : forall r, In r (lines input) -> skipped skipPatterns r = false -> dropCR r = r.
(** The last record is kept. *)
Hypothesis Hlast : forall pre r, lines input = pre ++ [r] -> skipped skipPatterns r = false.

Lemma sortKeys_round_trip (set : list string) :
  (forall x, In x set -> In x (lines input) /\ skipped skipPatterns x = false) ->
  lines (serialize (sortKeys set)) = sortKeys set.
Proof.
  intros Hset. apply serialize_lines_round_trip, Forall_forall. intros x Hx.
  apply (proj1 (sort_strings_In x set)) in Hx. destruct (Hset x Hx) as [Hin Hk].
  split; [exact (lines_nl_free input x Hin)|exact (Hcr x Hin Hk)].
Qed.

Lemma acc_ok_skip (pre : list string) (line : string) (st : split_state) (sc : scanner)
    (w : world) :
  skipped skipPatterns line = true -> acc_ok skipPatterns pre st w ->
  acc_ok skipPatterns (pre ++ [line])
    (mkSplit sc (st_set st) (st_chunks st) (st_bytesUsed st) (st_previousLen st)) w.
Proof.
  intros Hsk (Hnd & Hin & Hfill & Hsort & Hcnt & Hout & Hpres).
  unfold acc_ok; cbn [st_set st_chunks st_scanner st_bytesUsed st_previousLen].
  split; [exact Hnd|]. split; [|split; [exact Hfill|split; [exact Hsort|]]].
  - intros x. rewrite Hin, in_app_iff. simpl. split.
    + intros [H1 H2]. auto.
    + intros [[H1|[<-|[]]] H2]; [auto|congruence].
  - rewrite length_app. simpl. split; [lia|auto].
Qed.

Lemma acc_ok_add (pre : list string) (line : string) (st : split_state) (sc : scanner)
    (b : N) (p : nat) (w : world) :
  skipped skipPatterns line = false -> acc_ok skipPatterns pre st w ->
  acc_ok skipPatterns (pre ++ [line])
    (mkSplit sc (set_add (st_set st) line) (st_chunks st) b p) w.
Proof.
  intros Hk (Hnd & Hin & Hfill & Hsort & Hcnt & Hout & Hpres).
  unfold acc_ok; cbn [st_set st_chunks st_scanner st_bytesUsed st_previousLen].
  split; [apply set_add_NoDup, Hnd|]. split; [|split; [exact Hfill|split; [exact Hsort|]]].
  - intros x. rewrite set_add_In_iff, in_app_iff. simpl. split.
    + intros [[H| ->]|H].
      * destruct (proj1 (Hin x) (or_introl H)) as [H1 H2]. auto.
      * split; [right; left; reflexivity|exact Hk].
      * destruct (proj1 (Hin x) (or_intror H)) as [H1 H2]. auto.
    + intros [[H|[<-|[]]] H2]; [|auto].
      destruct (proj2 (Hin x) (conj H H2)); auto.
  - rewrite length_app. simpl. pose proof (set_add_length (st_set st) line).
    split; [lia|auto].
Qed.

Lemma acc_ok_spill (pre : list string) (st : split_state) (sc : scanner) (w w2 : world) :
  acc_ok skipPatterns pre st w -> st_set st <> [] ->
  (forall x, In x pre -> In x (lines input)) ->
  w_files w2 = (Tmp (w_next w), serialize (sortKeys (st_set st))) :: w_files w ->
  w_next w2 = S (w_next w) ->
  acc_ok skipPatterns pre (mkSplit sc [] (st_chunks st ++ [Tmp (w_next w)]) 0 0) w2.
Proof.
  intros (Hnd & Hin & Hfill & Hsort & Hcnt & Hout & Hpres) Hne Hpre Hf Hn.
  unfold acc_ok; cbn [st_set st_chunks st_scanner st_bytesUsed st_previousLen].
  assert (Hset : forall x, In x (st_set st) -> In x (lines input) /\ skipped skipPatterns x = false).
  { intros x Hx. destruct (proj1 (Hin x) (or_introl Hx)) as [H1 H2]. auto. }
  assert (Hold : forall c, In c (st_chunks st) ->
            file_content (w_files w2) c = file_content (w_files w) c).
  { intros c Hc. destruct (Hfill c Hc) as (k & -> & Hk & _). rewrite Hf.
    apply file_content_cons_other. intros Heq. injection Heq. lia. }
  assert (Hnew : file_content (w_files w2) (Tmp (w_next w)) = serialize (sortKeys (st_set st))).
  { rewrite Hf. simpl. rewrite Nat.eqb_refl. reflexivity. }
  assert (Hmap : flat_map (fun c => lines (file_content (w_files w2) c))
                   (st_chunks st ++ [Tmp (w_next w)]) =
                 flat_map (fun c => lines (file_content (w_files w) c)) (st_chunks st) ++
                 sortKeys (st_set st)).
  { rewrite flat_map_app. simpl. rewrite Hnew, (sortKeys_round_trip _ Hset), app_nil_r.
    f_equal. rewrite !flat_map_concat_map. f_equal. apply map_ext_in.
    intros c Hc. rewrite Hold by exact Hc. reflexivity. }
  split; [constructor|]. split; [|split; [|split; [|split; [|split]]]].
  - intros x. rewrite <- Hin. split.
    + intros [[]|(c & Hc & Hx)]. apply in_app_or in Hc as [Hc|[<-|[]]].
      * right. exists c. rewrite <- Hold by exact Hc. auto.
      * left. rewrite Hnew, (sortKeys_round_trip _ Hset) in Hx.
        exact (proj1 (sort_strings_In x (st_set st)) Hx).
    + intros [Hx|(c & Hc & Hx)]; right.
      * exists (Tmp (w_next w)). split; [apply in_or_app; right; left; reflexivity|].
        rewrite Hnew, (sortKeys_round_trip _ Hset).
        exact (proj2 (sort_strings_In x (st_set st)) Hx).
      * exists c. split; [apply in_or_app; left; exact Hc|]. rewrite Hold by exact Hc. exact Hx.
  - intros c Hc. apply in_app_or in Hc as [Hc|[<-|[]]].
    + destruct (Hfill c Hc) as (k & -> & Hk & Hc'). exists k. split; [reflexivity|].
      split; [lia|]. rewrite Hold by exact Hc. exact Hc'.
    + exists (w_next w). split; [reflexivity|]. split; [lia|]. rewrite Hnew.
      apply serialize_sortKeys_nonempty, Hne.
  - intros c Hc. apply in_app_or in Hc as [Hc|[<-|[]]].
    + rewrite Hold by exact Hc. apply Hsort, Hc.
    + rewrite Hnew, (sortKeys_round_trip _ Hset). apply sortKeys_sorted, Hnd.
  - rewrite Hmap, length_app, sortKeys_length. simpl. lia.
  - rewrite Hf, file_content_cons_other by discriminate. exact Hout.
  - rewrite Hf. right. exact Hpres.
Qed.

Lemma split_step_all_ok (pre : list string) (st : split_state) (w : world) :
  lines input = pre ++ sc_token (st_scanner st) :: lines (sc_rest (st_scanner st)) ->
  sc_failed (st_scanner st) = false ->
  acc_ok skipPatterns pre st w ->
  exists r w', split_step all_ok tmpFileBytes skipPatterns st w = (Ok r, w') /\
  match r with
  | inr st' =>
      lines input = (pre ++ [sc_token (st_scanner st)]) ++
                    sc_token (st_scanner st') :: lines (sc_rest (st_scanner st')) /\
      sc_failed (st_scanner st') = false /\
      acc_ok skipPatterns (pre ++ [sc_token (st_scanner st)]) st' w'
  | inl (Break st') =>
      lines input = pre ++ [sc_token (st_scanner st)] /\
      sc_failed (st_scanner st') = false /\ st_set st' <> [] /\
      acc_ok skipPatterns (pre ++ [sc_token (st_scanner st)]) st' w'
  | inl (Return _ _) => False
  end.
Proof.
  destruct st as [sc set chunks bytes prev].
  cbn [st_scanner st_set st_chunks st_bytesUsed st_previousLen].
  intros Hl Hf Hacc. unfold split_step.
  cbn [st_scanner st_set st_chunks st_bytesUsed st_previousLen].
  pose proof (Scan_lines sc) as HS. destruct (Scan sc) as [hasNext sc'].
  destruct HS as [Hf' HS].
  assert (Hnext : hasNext = true -> lines input =
            (pre ++ [sc_token sc]) ++ sc_token sc' :: lines (sc_rest sc')).
  { intros ->. rewrite Hl, HS, <- app_assoc. reflexivity. }
  destruct (skipped skipPatterns (sc_token sc)) eqn:Esk.
  - destruct hasNext.
    + eexists _, _. split; [reflexivity|]. cbn [st_scanner].
      split; [apply Hnext; reflexivity|]. split; [congruence|].
      exact (acc_ok_skip pre (sc_token sc) (mkSplit sc set chunks bytes prev) sc' w Esk Hacc).
    + destruct HS as [HS _]. rewrite HS in Hl.
      rewrite (Hlast pre (sc_token sc) Hl) in Esk. discriminate.
  - pose proof (acc_ok_add pre (sc_token sc) (mkSplit sc set chunks bytes prev) sc'
                  bytes prev w Esk Hacc) as Hadd.
    destruct hasNext; cbn [negb].
    2:{ eexists _, _. split; [reflexivity|]. cbn [st_scanner st_set].
        destruct HS as [HS _]. rewrite HS in Hl.
        split; [exact Hl|]. split; [congruence|]. split; [apply set_add_nonempty|exact Hadd]. }
    destruct (Nat.ltb prev _).
    2:{ eexists _, _. split; [reflexivity|]. cbn [st_scanner].
        split; [apply Hnext; reflexivity|]. split; [congruence|]. exact Hadd. }
    destruct (N.ltb tmpFileBytes _).
    2:{ eexists _, _. split; [reflexivity|]. cbn [st_scanner].
        split; [apply Hnext; reflexivity|]. split; [congruence|].
        destruct Hadd as (? & ? & ? & ? & ? & ? & ?).
        split; [assumption|]. repeat (split; [assumption|]). assumption. }
    destruct (spill_all_ok (sortKeys (set_add set (sc_token sc))) w)
      as (w1 & w2 & E1 & E2 & Ef & En).
    unfold bind at 1. rewrite E1. cbv beta iota. unfold bind. rewrite E2.
    eexists _, _. split; [reflexivity|]. cbn [st_scanner].
    split; [apply Hnext; reflexivity|]. split; [congruence|].
    apply (acc_ok_spill (pre ++ [sc_token sc])
             (mkSplit sc' (set_add set (sc_token sc)) chunks bytes prev) sc' w w2 Hadd).
    + apply set_add_nonempty.
    + intros x Hx. rewrite Hl. apply in_app_or in Hx as [Hx|[<-|[]]];
        apply in_or_app; [left; exact Hx|right; left; reflexivity].
    + exact Ef.
    + exact En.
Qed.

Lemma split_loop_all_ok (fuel : nat) (pre : list string) (st : split_state) (w : world) :
  lines input = pre ++ sc_token (st_scanner st) :: lines (sc_rest (st_scanner st)) ->
  sc_failed (st_scanner st) = false ->
  acc_ok skipPatterns pre st w ->
  List.length (lines (sc_rest (st_scanner st))) < fuel ->
  exists st' w', split_loop all_ok tmpFileBytes skipPatterns fuel st w = (Ok (Break st'), w') /\
    sc_failed (st_scanner st') = false /\ st_set st' <> [] /\
    acc_ok skipPatterns (lines input) st' w'.
Proof.
  revert pre st w. induction fuel as [|fuel IH]; intros pre st w Hl Hf Hacc Hfuel; [lia|].
  simpl split_loop. unfold bind.
  destruct (split_step_all_ok pre st w Hl Hf Hacc) as (r & w1 & -> & H).
  destruct r as [[st'|chunks e]|st'].
  - destruct H as (Hl' & Hf' & Hne & Hacc'). exists st', w1. rewrite <- Hl' in Hacc'. auto.
  - contradiction.
  - destruct H as (Hl' & Hf' & Hacc').
    apply (IH _ st' w1 Hl' Hf' Hacc').
    assert (Hlen := f_equal (@List.length string) (eq_trans (eq_sym Hl) Hl')).
    rewrite !length_app in Hlen. simpl in Hlen. lia.
Qed.

End DedupOk.

(** [Dedup] when every file-system call succeeds and the input is read to a
    clean EOF: it returns without error and the destination holds, one per
    line, the records of the input that no pattern skips, each once and in
    strictly increasing order.  This needs the kept records not to end in
    ['\r'] (the merge would drop it), the last record to be kept (the loop
    would go on with an empty record), no line too long for the scanners
    ([fits_scanner]: the chunks hold lines of the input) and enough fuel. *)
Theorem Dedup_all_ok_output (tmpFileBytes : N) (skipPatterns : list (string -> bool))
    (fuel : nat) (input : string) :
  fits_scanner input = true ->
  (forall r, In r (lines input) -> skipped skipPatterns r = false -> dropCR r = r) ->
  (forall pre r, lines input = pre ++ [r] -> skipped skipPatterns r = false) ->
  List.length (lines input) < fuel ->
  let '(r, w) := run_Dedup all_ok tmpFileBytes skipPatterns fuel input false in
  r = Ok tt /\ exists out,
    out_contents w = serialize out /\ Sorted str_lt out /\
    (forall x, In x out <-> In x (lines input) /\ skipped skipPatterns x = false).
Proof.
  intros _ Hcr Hlast Hfuel. unfold run_Dedup, Dedup, splitSortDeduplicate.
  pose proof (Scan_lines (NewScanner input false)) as HS.
  destruct (Scan (NewScanner input false)) as [hasNext sc].
  destruct HS as [Hf HS]. cbn [sc_failed sc_rest NewScanner] in Hf, HS.
  destruct hasNext; cbn [negb].
  2:{ destruct HS as [HS _]. unfold bind, ret, scanner_Err. rewrite Hf. simpl.
      split; [reflexivity|]. exists []. split; [reflexivity|]. split; [constructor|].
      rewrite HS. simpl. tauto. }
  assert (Hacc0 : acc_ok skipPatterns [] (mkSplit sc [] [] 0 0) world0).
  { unfold acc_ok; cbn [st_set st_chunks]. split; [constructor|].
    split; [intros x; simpl; split; [intros [[]|(c & [] & _)]|intros [[] _]]|].
    split; [intros c []|]. split; [intros c []|]. split; [simpl; lia|].
    split; [reflexivity|left; reflexivity]. }
  assert (Hfuel0 : List.length (lines (sc_rest sc)) < fuel).
  { rewrite HS in Hfuel. cbn [List.length] in Hfuel. lia. }
  destruct (split_loop_all_ok tmpFileBytes skipPatterns input Hcr Hlast fuel []
              (mkSplit sc [] [] 0 0) world0 HS Hf Hacc0 Hfuel0)
    as (st & w1 & E & Hf1 & Hne & Hacc).
  unfold bind. rewrite E. cbv beta iota.
  unfold scanner_Err. rewrite Hf1.
  destruct (st_chunks st) as [|c cs] eqn:Ech.
  - destruct Hacc as (Hnd & Hin & _ & _ & _ & Hout & Hpres). rewrite Ech in Hin.
    unfold ret, attempt.
    destruct (writeSlice_all_ok OutFile (sortKeys (st_set st)) w1) as [Hr _].
    destruct (writeSlice_files all_ok OutFile (sortKeys (st_set st)) w1) as (_ & _ & _ & Hok).
    destruct (writeSlice all_ok OutFile (sortKeys (st_set st)) w1) as [r2 w2].
    simpl in Hr, Hok. subst r2. simpl.
    split; [reflexivity|]. exists (sortKeys (st_set st)).
    split; [|split; [apply sortKeys_sorted, Hnd|]].
    + unfold out_contents. rewrite (Hok eq_refl), file_content_append_in by exact Hpres.
      rewrite Hout. reflexivity.
    + intros x. rewrite <- Hin. split.
      * intros H. left. exact (proj1 (sort_strings_In x _) H).
      * intros [H|(c & [] & _)]. exact (proj2 (sort_strings_In x _) H).
  - pose proof (acc_ok_spill skipPatterns input Hcr (lines input) st sc w1)
      as Hsp.
    destruct (spill_all_ok (sortKeys (st_set st)) w1) as (w2 & w3 & E1 & E2 & Ef & En).
    specialize (Hsp w3 Hacc Hne (fun x H => H) Ef En). rewrite Ech in Hsp.
    destruct Hsp as (_ & Hin & Hfill & Hsort & Hcnt & Hout & Hpres).
    cbn [st_set st_chunks] in Hin, Hfill, Hsort, Hcnt.
    rewrite E1. cbv beta iota. rewrite E2. cbv beta iota.
    unfold ret. cbv beta iota.
    replace (Nat.leb (List.length ((c :: cs) ++ [Tmp (w_next w1)])) 1) with false
      by (symmetry; apply Nat.leb_gt; rewrite length_app; simpl; lia).
    unfold defer_cleanup.
    assert (H1 : forall c', In c' ((c :: cs) ++ [Tmp (w_next w1)]) ->
                 file_content (w_files w3) c' <> EmptyString /\
                 Sorted str_lt (lines (file_content (w_files w3) c'))).
    { intros c' Hc'. split; [destruct (Hfill c' Hc') as (k & _ & _ & H); exact H|].
      apply Hsort, Hc'. }
    pose proof (mergeChunks_merges fuel _ w3 H1 ltac:(lia)) as HM.
    destruct (mergeChunks all_ok fuel ((c :: cs) ++ [Tmp (w_next w1)]) w3) as [r4 w4].
    destruct HM as [-> (out & Hf4 & Hs4 & Hin4)].
    split; [reflexivity|]. exists out. split; [|split; [exact Hs4|]].
    + unfold out_contents. rewrite cleanup_out, Hf4, file_content_append_in by exact Hpres.
      rewrite Hout. reflexivity.
    + intros x. rewrite Hin4, <- Hin. split; [intros H; right; exact H|intros [[]|H]; exact H].
Qed.

Lemma Dedup_all_ok_output_witness :
  fits_scanner bab_input = true /\
  (forall r, In r (lines bab_input) -> skipped [] r = false -> dropCR r = r) /\
  (forall pre r, lines bab_input = pre ++ [r] -> skipped [] r = false) /\
  List.length (lines bab_input) < 10 /\
  let '(r, w) := run_Dedup all_ok 2 [] 10 bab_input false in
  r = Ok tt /\ exists out,
    out_contents w = serialize out /\ Sorted str_lt out /\
    (forall x, In x out <-> In x (lines bab_input) /\ skipped [] x = false).
Proof.
  assert (H1 : forall r, In r (lines bab_input) -> skipped [] r = false -> dropCR r = r).
  { intros r Hr _. vm_compute in Hr. destruct Hr as [<-|[<-|[<-|[]]]]; reflexivity. }
  assert (H2 : forall pre r, lines bab_input = pre ++ [r] -> skipped [] r = false).
  { intros pre r _. reflexivity. }
  assert (H3 : List.length (lines bab_input) < 10).
  { apply Nat.ltb_lt. vm_compute. reflexivity. }
  assert (H0 : fits_scanner bab_input = true) by (vm_compute; reflexivity).
  split; [exact H0|]. split; [exact H1|]. split; [exact H2|]. split; [exact H3|].
  exact (Dedup_all_ok_output 2 [] 10 bab_input H0 H1 H2 H3).
Defined.
